(** * Tic-Tac-Toe (src/public/src/App.js): board, win detection, opponent
    policy, turn handling, reset and the analysis call.

    The React component keeps its state in [useState] cells and changes it
    through setters; here the component state is a record and every handler
    is a function from state to state.  The setters one handler calls take
    effect together, and the effect then runs on the state they leave.  The
    board is a JavaScript array of [null], ['X'] and ['O']; it is a list of
    cells, read with stdpp's list lookup and written by index the way a
    JavaScript array is. *)

From stdpp Require Import base decidable option list strings gmap sorting.
From Stdlib Require Import ZArith QArith Ascii.
Local Open Scope nat_scope.

(** ** Cells and boards *)

Inductive mark := X | O.

(** What an array slot can hold.  [Undefined] is what a read past the end
    (or of a hole) gives; the handlers only ever store [Null] and marks. *)
Inductive cell := Undefined | Null | Mark (m : mark).

#[global] Instance mark_eq_dec : EqDecision mark.
Proof. solve_decision. Defined.
#[global] Instance cell_eq_dec : EqDecision cell.
Proof. solve_decision. Defined.

Module Js.

(** [squares[i]]: a read out of range is [undefined]. *)
Definition get (a : list cell) (i : nat) : cell := default Undefined (a !! i).

(** [a[i] = v]: in range the slot is replaced; past the end the array
    grows, the slots in between being holes. *)
Definition put (a : list cell) (i : nat) (v : cell) : list cell :=
  if decide (i < length a) then <[i := v]> a
  else a ++ replicate (i - length a) Undefined ++ [v].

(** Truthiness of a slot: only the strings ['X'] and ['O'] are truthy. *)
Definition truthy (c : cell) : bool :=
  match c with Mark _ => true | _ => false end.

(** [a.includes(null)] *)
Definition includes_null (a : list cell) : bool := bool_decide (Null ∈ a).

(** [Math.random()] is a number in the half-open interval from 0 to 1: the
    fraction [numer / (numer + slack + 1)]. *)
Record random := Random { numer : nat; slack : nat }.

(** [Math.floor(Math.random() * n)] *)
Definition floorRandomTimes (r : random) (n : nat) : nat :=
  (numer r * n) `div` (numer r + slack r + 1).

End Js.

(** ** calculateWinner *)

Definition line : Type := nat * nat * nat.

Record winnerInfo := WinnerInfo { winner_of : mark; line_of : line }.

#[global] Instance line_eq_dec : EqDecision line.
Proof. solve_decision. Defined.
#[global] Instance winnerInfo_eq_dec : EqDecision winnerInfo.
Proof. solve_decision. Defined.

Definition lines : list line :=
  [ (0, 1, 2); (3, 4, 5); (6, 7, 8);
    (0, 3, 6); (1, 4, 7); (2, 5, 8);
    (0, 4, 8); (2, 4, 6) ].

(** The [for] loop over [lines], from the current entry on: the first line
    whose three squares hold the same truthy value is returned. *)
Fixpoint scanLines (squares : list cell) (ls : list line) : option winnerInfo :=
  match ls with
  | [] => None
  | (a, b, c) :: rest =>
      match Js.get squares a with
      | Mark m =>
          if bool_decide (Js.get squares a = Js.get squares b)
             && bool_decide (Js.get squares a = Js.get squares c)
          then Some (WinnerInfo m (a, b, c))
          else scanLines squares rest
      | _ => scanLines squares rest
      end
  end.

Definition calculateWinner (squares : list cell) : option winnerInfo :=
  scanLines squares lines.

(** A line is complete for [m] when its three squares hold [m]. *)
Definition complete (b : list cell) (l : line) (m : mark) : Prop :=
  Js.get b l.1.1 = Mark m ∧ Js.get b l.1.2 = Mark m ∧ Js.get b l.2 = Mark m.

#[global] Instance complete_dec b l m : Decision (complete b l m).
Proof. unfold complete. apply _. Defined.

Definition completed (b : list cell) (l : line) : Prop := ∃ m, complete b l m.

#[global] Instance completed_dec b l : Decision (completed b l).
Proof.
  refine (cast_if (decide (complete b l X ∨ complete b l O))).
  - abstract (intros; unfold completed; destruct_or!; eauto).
  - abstract (intros [[] ?]; tauto).
Defined.

(** ** Values of the analysis reply

    [response.json()] yields a JSON value; a property that is absent reads
    as [undefined], which is [None] here. *)

#[warnings="-register-all"]
Inductive json :=
| JNull
| JBool (b : bool)
| JNum (q : Q)
| JStr (s : string)
| JArr (elems : list json)
| JObj (fields : gmap string json).

Definition value : Type := option json.

Inductive error := TypeError | FetchError | SyntaxError.

(** Result of evaluating an expression or a block that may throw. *)
Inductive completion (A : Type) :=
| Normal (a : A)
| Throw (e : error).
Arguments Normal {A} a.
Arguments Throw {A} e.

#[global] Instance completion_ret : MRet completion := λ A a, Normal a.
#[global] Instance completion_bind : MBind completion :=
  λ A B f c, match c with Normal a => f a | Throw e => Throw e end.

(** ** Component state *)

Record state := State {
  board : list cell;
  xIsNext : bool;
  winner : option mark;
  isDraw : bool;
  gameAnalysis : value;
  isLoadingAnalysis : bool;
  winningLine : option line
}.

Definition setBoard (b : list cell) (st : state) : state :=
  State b (xIsNext st) (winner st) (isDraw st)
        (gameAnalysis st) (isLoadingAnalysis st) (winningLine st).
Definition setXIsNext (x : bool) (st : state) : state :=
  State (board st) x (winner st) (isDraw st)
        (gameAnalysis st) (isLoadingAnalysis st) (winningLine st).
Definition setWinner (w : option mark) (st : state) : state :=
  State (board st) (xIsNext st) w (isDraw st)
        (gameAnalysis st) (isLoadingAnalysis st) (winningLine st).
Definition setIsDraw (d : bool) (st : state) : state :=
  State (board st) (xIsNext st) (winner st) d
        (gameAnalysis st) (isLoadingAnalysis st) (winningLine st).
Definition setGameAnalysis (t : value) (st : state) : state :=
  State (board st) (xIsNext st) (winner st) (isDraw st)
        t (isLoadingAnalysis st) (winningLine st).
Definition setIsLoadingAnalysis (l : bool) (st : state) : state :=
  State (board st) (xIsNext st) (winner st) (isDraw st)
        (gameAnalysis st) l (winningLine st).
Definition setWinningLine (l : option line) (st : state) : state :=
  State (board st) (xIsNext st) (winner st) (isDraw st)
        (gameAnalysis st) (isLoadingAnalysis st) l.

(** The empty string [''] as an analysis text. *)
Definition emptyText : value := Some (JStr EmptyString).

(** The [useState] initial values. *)
Definition initialState : state :=
  State (replicate 9 Null) false None false emptyText false None.

(** ** The effect run after every change of [board] or [xIsNext]

    It returns the updated state and, when it calls [setTimeout], the board
    the delayed [makeComputerMove] is given. *)
Definition gameEffect (st : state) : state * option (list cell) :=
  match calculateWinner (board st) with
  | Some winnerInfo =>
      (setWinningLine (Some (line_of winnerInfo))
         (setWinner (Some (winner_of winnerInfo)) st), None)
  | None =>
      if negb (Js.includes_null (board st)) then (setIsDraw true st, None)
      else if xIsNext st then (st, Some (board st))
      else (st, None)
  end.

(** The status the effect decides for a board: its three branches. *)
Inductive GameStatus :=
| InProgress
| Won (m : mark) (l : line)
| Drawn.

#[global] Instance GameStatus_eq_dec : EqDecision GameStatus.
Proof. solve_decision. Defined.

Definition evaluate (b : list cell) : GameStatus :=
  match calculateWinner b with
  | Some winnerInfo => Won (winner_of winnerInfo) (line_of winnerInfo)
  | None => if negb (Js.includes_null b) then Drawn else InProgress
  end.

(** ** handleClick *)

Definition handleClick (i : nat) (st : state) : state :=
  if bool_decide (winner st ≠ None) || isDraw st
     || Js.truthy (Js.get (board st) i) || xIsNext st
  then st
  else
    let newBoard := Js.put (board st) i (Mark O) in
    setXIsNext true (setBoard newBoard st).

(** ** makeComputerMove *)

(** [newBoard.map((val, idx) => val === null ? idx : null)
            .filter(val => val !== null)] *)
Definition availableSquares (newBoard : list cell) : list nat :=
  omap id (imap (λ idx val, if decide (val = Null) then Some idx else None)
                newBoard).

(** The loop of strategies 1 and 2 over [availableSquares], from the current
    entry on, for the mark [m] it tries; its result is the value of
    [bestMove] when the loop is left, [-1] when no square matched. *)
Fixpoint tryWinningSquares (newBoard : list cell) (m : mark)
    (squares : list nat) : Z :=
  match squares with
  | [] => (-1)%Z
  | sq :: rest =>
      let tempBoard := Js.put newBoard sq (Mark m) in
      if bool_decide (winner_of <$> calculateWinner tempBoard = Some m)
      then Z.of_nat sq
      else tryWinningSquares newBoard m rest
  end.

(** The loop of strategy 4 over [corners]. *)
Fixpoint tryCorners (newBoard : list cell) (corners : list nat) : Z :=
  match corners with
  | [] => (-1)%Z
  | c :: rest =>
      if bool_decide (Js.get newBoard c = Null) then Z.of_nat c
      else tryCorners newBoard rest
  end.

(** What a search loop leaves in [bestMove]: the first matching index, or
    [-1] when there is none. *)
Definition found (o : option nat) : Z := from_option Z.of_nat (-1)%Z o.

Definition strategy1 (newBoard : list cell) (avail : list nat) : Z :=
  tryWinningSquares newBoard X avail.

Definition strategy2 (newBoard : list cell) (avail : list nat) (bestMove : Z) : Z :=
  if (bestMove =? -1)%Z then tryWinningSquares newBoard O avail else bestMove.

Definition strategy3 (newBoard : list cell) (bestMove : Z) : Z :=
  if (bestMove =? -1)%Z && bool_decide (Js.get newBoard 4 = Null)
  then 4%Z else bestMove.

Definition strategy4 (newBoard : list cell) (bestMove : Z) : Z :=
  if (bestMove =? -1)%Z then tryCorners newBoard [0; 2; 6; 8] else bestMove.

(** Strategy 5 reads [availableSquares[...]]; a read out of range would be
    [undefined], which is [None]. *)
Definition strategy5 (avail : list nat) (r : Js.random) (bestMove : Z) : option Z :=
  if (bestMove =? -1)%Z
  then Z.of_nat <$> avail !! Js.floorRandomTimes r (length avail)
  else Some bestMove.

(** The value of [bestMove] when the board is written. *)
Definition bestMove (newBoard : list cell) (r : Js.random) : option Z :=
  let avail := availableSquares newBoard in
  strategy5 avail r
    (strategy4 newBoard
       (strategy3 newBoard
          (strategy2 newBoard avail
             (strategy1 newBoard avail)))).

Definition makeComputerMove (currentBoard : list cell) (r : Js.random)
    (st : state) : state :=
  let newBoard := currentBoard in
  let avail := availableSquares newBoard in
  if decide (length avail = 0) then st
  else
    match bestMove newBoard r with
    | Some move =>
        setXIsNext false (setBoard (Js.put newBoard (Z.to_nat move) (Mark X)) st)
    | None => setXIsNext false (setBoard newBoard st)
    end.

(** ** resetGame *)

Definition resetGame (st : state) : state :=
  setWinningLine None
    (setIsLoadingAnalysis false
       (setGameAnalysis emptyText
          (setIsDraw false
             (setWinner None
                (setXIsNext false
                   (setBoard (replicate 9 Null) st)))))).

(** ** Moves

    A handler that sets [board] or [xIsNext] is followed by a render and
    the effect of that render.  A label records what an event of the event
    loop [Loop], defined further down, did to the game: the mark it placed
    and where, nothing, or a restart. *)

Inductive label :=
| Moved (m : mark) (i : nat)
| Idle
| Restarted.

Definition rendered (st : state) : state := (gameEffect st).1.

Definition clickAccepted (i : nat) (st : state) : bool :=
  negb (bool_decide (winner st ≠ None) || isDraw st
        || Js.truthy (Js.get (board st) i) || xIsNext st).

Definition opposite (m : mark) : mark :=
  match m with X => O | O => X end.

Definition sideToMove (st : state) : mark := if xIsNext st then X else O.

(** The marks placed alternate, starting with [side]; a restart gives the
    first move to [O] again. *)
Fixpoint alternates (side : mark) (ls : list label) : Prop :=
  match ls with
  | [] => True
  | Moved m _ :: rest => m = side ∧ alternates (opposite side) rest
  | Idle :: rest => alternates side rest
  | Restarted :: rest => alternates O rest
  end.

(** The stored flags agree with the board: nine cells, none of them a
    hole, and the stored winner, winning line and draw flag are those the
    effect derives from the board.  A timer that outlives a reset can break
    this ([Loop.steady] below). *)
Record consistent (st : state) : Prop := Consistent {
  consistent_length : length (board st) = 9;
  consistent_cells : Forall (λ c, c ≠ Undefined) (board st);
  consistent_winner : winner st = winner_of <$> calculateWinner (board st);
  consistent_line : winningLine st = line_of <$> calculateWinner (board st);
  consistent_draw : isDraw st = bool_decide (evaluate (board st) = Drawn)
}.

(** ** getLLMGameAnalysis

    The handler changes the state and can throw; it is written in a state
    and exception monad.  The request it sends is answered from outside the
    program: [reply] is what the two [await]s deliver. *)

Definition action (A : Type) : Type := state → completion A * state.

#[global] Instance action_ret : MRet action := λ A a st, (Normal a, st).
#[global] Instance action_bind : MBind action :=
  λ A B f m st,
    match m st with
    | (Normal a, st') => f a st'
    | (Throw e, st') => (Throw e, st')
    end.

Definition modify (f : state → state) : action unit := λ st, (Normal (), f st).

Definition eval {A} (c : completion A) : action A := λ st, (c, st).

(** [try { body } catch (error) { handler }] *)
Definition tryCatch {A} (body : action A) (handler : error → action A) : action A :=
  λ st,
    match body st with
    | (Normal a, st') => (Normal a, st')
    | (Throw e, st') => handler e st'
    end.

(** [try { body } finally { final }] *)
Definition tryFinally {A} (body : action A) (final : action unit) : action A :=
  λ st,
    match body st with
    | (c, st') =>
        match final st' with
        | (Normal _, st'') => (c, st'')
        | (Throw e, st'') => (Throw e, st'')
        end
    end.

Inductive reply :=
| FetchRejects
| JsonRejects
| Json (result : json).

(** Truthiness of a value. *)
Definition toBoolean (v : value) : bool :=
  match v with
  | None | Some JNull => false
  | Some (JBool b) => b
  | Some (JNum q) => negb (Qeq_bool q 0)
  | Some (JStr s) => negb (bool_decide (s = EmptyString))
  | Some (JArr _) | Some (JObj _) => true
  end.

Definition numberOfNat (n : nat) : json := JNum (inject_Z (Z.of_nat n)).

(** [v.k] for the property names this program reads ([candidates],
    [length], [content], [parts], [text]): reading a property of [undefined]
    or [null] throws; numbers and booleans have none of them; strings and
    arrays have [length]; an object has its own entries. *)
Definition getProp (v : value) (k : string) : completion value :=
  match v with
  | None | Some JNull => Throw TypeError
  | Some (JBool _) | Some (JNum _) => Normal None
  | Some (JStr s) =>
      Normal (if bool_decide (k = "length")
              then Some (numberOfNat (String.length s)) else None)
  | Some (JArr elems) =>
      Normal (if bool_decide (k = "length")
              then Some (numberOfNat (length elems)) else None)
  | Some (JObj fields) => Normal (fields !! k)
  end.

(** [v[0]] *)
Definition getFirst (v : value) : completion value :=
  match v with
  | None | Some JNull => Throw TypeError
  | Some (JBool _) | Some (JNum _) => Normal None
  | Some (JStr s) =>
      Normal (match s with
              | EmptyString => None
              | String c _ => Some (JStr (String c EmptyString))
              end)
  | Some (JArr elems) => Normal (elems !! 0)
  | Some (JObj fields) => Normal (fields !! "0")
  end.

Section analysis.

(** [v > 0] for an operand that is a string, an array or an object goes
    through the runtime's conversion to a number, which may throw; the
    conversion is a parameter of the model. *)
Variable toNumberGt0 : json → completion bool.

Definition greaterThanZero (v : value) : completion bool :=
  match v with
  | None => Normal false
  | Some JNull => Normal false
  | Some (JBool b) => Normal b
  | Some (JNum q) => Normal (if Qlt_le_dec 0 q then true else false)
  | Some j => toNumberGt0 j
  end.

(** [a && b] in a condition: [b] is evaluated only when [a] is truthy. *)
Definition andAlso (a b : completion bool) : completion bool :=
  x ← a; if x : bool then b else mret false.

Definition candidates (result : json) : completion value :=
  getProp (Some result) "candidates".
Definition candidates0 (result : json) : completion value :=
  c ← candidates result; getFirst c.
Definition content (result : json) : completion value :=
  c0 ← candidates0 result; getProp c0 "content".
Definition parts (result : json) : completion value :=
  ct ← content result; getProp ct "parts".

(** The condition of the [if] on the parsed reply. *)
Definition hasCandidateText (result : json) : completion bool :=
  andAlso (c ← candidates result; mret (toBoolean c))
  (andAlso (c ← candidates result; n ← getProp c "length"; greaterThanZero n)
  (andAlso (ct ← content result; mret (toBoolean ct))
  (andAlso (p ← parts result; mret (toBoolean p))
           (p ← parts result; n ← getProp p "length"; greaterThanZero n)))).

(** [result.candidates[0].content.parts[0].text] *)
Definition firstPartText (result : json) : completion value :=
  p ← parts result; p0 ← getFirst p; getProp p0 "text".

Definition unexpectedMessage : value :=
  Some (JStr "Could not get analysis. Unexpected response from LLM.").
Definition failedMessage : value :=
  Some (JStr "Failed to get game analysis. Please try again later.").

Definition tryBlock (rp : reply) : action unit :=
  result ← eval (match rp with
                 | FetchRejects => Throw FetchError
                 | JsonRejects => Throw SyntaxError
                 | Json result => Normal result
                 end);
  ok ← eval (hasCandidateText result);
  if ok : bool then
    text ← eval (firstPartText result);
    modify (setGameAnalysis text)
  else
    modify (setGameAnalysis unexpectedMessage).

(** The part of the handler before the first [await]. *)
Definition analysisRequested : action unit :=
  _ ← modify (setIsLoadingAnalysis true);
  modify (setGameAnalysis emptyText).

(** The part that runs once the reply is there. *)
Definition analysisReplied (rp : reply) : action unit :=
  tryFinally
    (tryCatch (tryBlock rp) (λ _, modify (setGameAnalysis failedMessage)))
    (modify (setIsLoadingAnalysis false)).

Definition getLLMGameAnalysis (rp : reply) : action unit :=
  _ ← analysisRequested; analysisReplied rp.

(** The text the handler leaves in [gameAnalysis], branch by branch. *)
Definition storedText (rp : reply) : value :=
  match rp with
  | FetchRejects | JsonRejects => failedMessage
  | Json result =>
      match hasCandidateText result with
      | Normal true =>
          match firstPartText result with
          | Normal text => text
          | Throw _ => failedMessage
          end
      | Normal false => unexpectedMessage
      | Throw _ => failedMessage
      end
  end.

End analysis.

(** The game part of the state is the same in both states. *)
Definition sameGame (st st' : state) : Prop :=
  board st' = board st ∧ xIsNext st' = xIsNext st ∧ winner st' = winner st
  ∧ isDraw st' = isDraw st ∧ winningLine st' = winningLine st.

(** The analysis paragraph of the view:
    [gameAnalysis && !isLoadingAnalysis && <p>"{gameAnalysis}"</p>]. *)
Definition shownAnalysis (st : state) : value :=
  if toBoolean (gameAnalysis st) && negb (isLoadingAnalysis st)
  then gameAnalysis st else None.

(** ** The specification's wording, to compare the code with *)

Module Spec.

(** The empty indices of a board, ascending. *)
Definition emptyIndices (b : list cell) : list nat :=
  filter (λ i, Js.get b i = Null) (seq 0 (length b)).

(** Placing [m] at [i] makes the evaluation report a win of [m]. *)
Definition winsAt (b : list cell) (m : mark) (i : nat) : bool :=
  match evaluate (Js.put b i (Mark m)) with
  | Won m' _ => bool_decide (m' = m)
  | _ => false
  end.

Definition immediateWin (b : list cell) : option nat :=
  head (filter (λ i, winsAt b X i) (emptyIndices b)).
Definition immediateBlock (b : list cell) : option nat :=
  head (filter (λ i, winsAt b O i) (emptyIndices b)).
Definition centerPreference (b : list cell) : option nat :=
  if decide (Js.get b 4 = Null) then Some 4 else None.
Definition cornerPreference (b : list cell) : option nat :=
  head (filter (λ i, Js.get b i = Null) [0; 2; 6; 8]).
Definition fallbackRandom (b : list cell) (r : Js.random) : option nat :=
  emptyIndices b !! Js.floorRandomTimes r (length (emptyIndices b)).

(** The cascade: the first strategy that applies decides. *)
Definition orElse (first next : option nat) : option nat :=
  match first with Some i => Some i | None => next end.

Definition cascade (b : list cell) (r : Js.random) : option nat :=
  orElse (immediateWin b)
    (orElse (immediateBlock b)
       (orElse (centerPreference b)
          (orElse (cornerPreference b)
             (fallbackRandom b r)))).

Definition first (v : value) : value :=
  match getFirst v with Normal x => x | Throw _ => None end.




End Spec.

(** ** The view: squares, highlight, status line, buttons *)

(** [Square]: the letter a square shows, if any
    ([value === 'X' && ...], [value === 'O' && ...]). *)
Definition squareText (value : cell) : option mark :=
  match value with Mark m => Some m | _ => None end.

(** [Board.renderSquare]: [winningLine && winningLine.includes(i)]. *)
Definition isWinningSquare (wl : option line) (i : nat) : bool :=
  match wl with
  | Some (a, b, c) => bool_decide (i ∈ [a; b; c])
  | None => false
  end.

Definition markText (m : mark) : string :=
  match m with X => "X" | O => "O" end.

Definition getStatus (st : state) : string :=
  match winner st with
  | Some w => "Winner: " +:+ markText w
  | None =>
      if isDraw st then "It's a Draw!"
      else if xIsNext st then "Computer's turn (X)" else "Your turn (O)"
  end.

(** The analysis button is rendered when [winner || isDraw] and is disabled
    while [isLoadingAnalysis]. *)
Definition analysisButtonShown (st : state) : bool :=
  bool_decide (winner st ≠ None) || isDraw st.

(** ** formatBoardForLLM *)

Definition newline : string := String (ascii_of_nat 10) EmptyString.

(** [currentBoard[i] || " "] *)
Definition cellText (c : cell) : string :=
  match c with Mark m => markText m | _ => " " end.

(** The [for] loop from [i] on, [count] rounds left. *)
Fixpoint formatLoop (currentBoard : list cell) (i count : nat)
    (formatted : string) : string :=
  match count with
  | 0 => formatted
  | S count' =>
      formatLoop currentBoard (S i) count'
        (formatted +:+ (cellText (Js.get currentBoard i)
                        +:+ (if (i + 1) `mod` 3 =? 0 then newline else " | ")))
  end.

(** White space and line terminators among the ASCII characters, which are
    the only characters [formatLoop] produces. *)
Definition isWhiteSpace (a : ascii) : bool :=
  let n := nat_of_ascii a in (n =? 32) || ((9 <=? n) && (n <=? 13)).

Fixpoint trimStart (s : string) : string :=
  match s with
  | EmptyString => EmptyString
  | String a rest => if isWhiteSpace a then trimStart rest else s
  end.

Definition trimEnd (s : string) : string :=
  String.rev (trimStart (String.rev s)).

(** [s.trim()] *)
Definition trim (s : string) : string := trimEnd (trimStart s).

Definition formatBoardForLLM (currentBoard : list cell) : string :=
  trim (formatLoop currentBoard 0 9 EmptyString).

(** Reading a formatted board back: the text is put back on the thirty
    columns of the untrimmed rows, and the three cells of each row are read
    at columns 0, 4 and 8. *)
Definition cellOfChar (a : option ascii) : cell :=
  match a with
  | Some "X"%char => Mark X
  | Some "O"%char => Mark O
  | _ => Null
  end.

Definition parseBoard (text : string) : list cell :=
  let padded :=
    match text with
    | String "|"%char _ => "  " +:+ text
    | _ => text
    end in
  (λ i, cellOfChar (String.get (10 * (i `div` 3) + 4 * (i `mod` 3)) padded))
    <$> seq 0 9.

(** A cell as the text shows it: holes and reads past the end look empty. *)
Definition shownCell (c : cell) : cell :=
  match c with Mark m => Mark m | _ => Null end.

(** All rows of [n] cells over empty, X and O. *)
Fixpoint allCells (n : nat) : list (list cell) :=
  match n with
  | 0 => [[]]
  | S n' => c ← [Null; Mark X; Mark O]; (c ::.) <$> allCells n'
  end.

(** ** Counting *)

Definition countCell (c : cell) (b : list cell) : nat :=
  length (filter (λ x, x = c) b).

(** As many O as X, and one more when it is X's turn. *)
Definition balanced (st : state) : Prop :=
  countCell (Mark O) (board st)
  = countCell (Mark X) (board st) + (if xIsNext st then 1 else 0).

Fixpoint countMoves (ls : list label) : nat :=
  match ls with
  | [] => 0
  | Moved _ _ :: rest => S (countMoves rest)
  | _ :: rest => countMoves rest
  end.

(** ** The event loop

    The component together with what is pending outside it: the callbacks
    given to [setTimeout], oldest first, each holding the board it was
    created with (the source cancels none of them), and the number of
    analysis requests that have not been answered.  An event is something
    the user or the environment does; [react] is what the program runs
    then. *)

Module Loop.

Record config := Config {
  current : state;
  timers : list (list cell);
  requests : nat
}.

Definition initial : config := Config initialState [] 0.

Inductive event :=
| Click (i : nat)
| TimerFires (r : Js.random)
| ResetPressed
| AnalysisPressed
| ReplyArrives (toNumberGt0 : json → completion bool) (rp : reply).

(** A handler has set [board] or [xIsNext]: the component renders and the
    effect runs on the new state; a timer it sets joins the pending ones. *)
Definition render (st : state) (pending : list (list cell)) (n : nat) : config :=
  Config (gameEffect st).1 (pending ++ option_list (gameEffect st).2) n.

Definition react (e : event) (c : config) : config :=
  let st := current c in
  match e with
  | Click i =>
      if (i <? 9) && clickAccepted i st
      then render (handleClick i st) (timers c) (requests c)
      else c
  | TimerFires r =>
      match timers c with
      | [] => c
      | b :: rest =>
          if decide (availableSquares b = [])
          then Config st rest (requests c)
          else render (makeComputerMove b r st) rest (requests c)
      end
  | ResetPressed => render (resetGame st) (timers c) (requests c)
  | AnalysisPressed =>
      if analysisButtonShown st && negb (isLoadingAnalysis st)
      then Config (analysisRequested st).2 (timers c) (S (requests c))
      else c
  | ReplyArrives toNumberGt0 rp =>
      match requests c with
      | 0 => c
      | S n => Config (analysisReplied toNumberGt0 rp st).2 (timers c) n
      end
  end.

Definition run (es : list event) (c : config) : config :=
  foldl (λ c e, react e c) c es.

(** The mark an event places and the index [handleClick] or
    [makeComputerMove] writes it to, if the event places one. *)
Definition placed (e : event) (c : config) : option (mark * nat) :=
  match e with
  | Click i =>
      if (i <? 9) && clickAccepted i (current c) then Some (O, i) else None
  | TimerFires r =>
      match timers c with
      | [] => None
      | b :: _ =>
          if decide (availableSquares b = []) then None
          else (λ move, (X, Z.to_nat move)) <$> bestMove b r
      end
  | _ => None
  end.

Definition labelOf (e : event) (c : config) : label :=
  match e with
  | ResetPressed => Restarted
  | _ => match placed e c with Some (m, i) => Moved m i | None => Idle end
  end.

Fixpoint labels (es : list event) (c : config) : list label :=
  match es with
  | [] => []
  | e :: rest => labelOf e c :: labels rest (react e c)
  end.

(** Reset is pressed only when no timer is pending. *)
Fixpoint calm (es : list event) (c : config) : Prop :=
  match es with
  | [] => True
  | e :: rest => (e = ResetPressed → timers c = []) ∧ calm rest (react e c)
  end.

Definition reachedCalmly (c : config) : Prop :=
  ∃ es, calm es initial ∧ run es initial = c.

(** No stale timer: the stored flags agree with the board, and the pending
    timers are exactly what the effect of the current state asks for. *)
Definition steady (c : config) : Prop :=
  consistent (current c)
  ∧ timers c = option_list (gameEffect (current c)).2.

(** Two complete games: one the opponent wins on the diagonal 2, 4, 6, and
    one that ends in a draw. *)
Definition opponentWins : list event :=
  [Click 0; TimerFires (Js.Random 0 0);
   Click 1; TimerFires (Js.Random 0 0);
   Click 3; TimerFires (Js.Random 0 0)].

Definition drawnGame : list event :=
  [Click 4; TimerFires (Js.Random 0 0);
   Click 8; TimerFires (Js.Random 0 0);
   Click 1; TimerFires (Js.Random 0 0);
   Click 3; TimerFires (Js.Random 0 0);
   Click 6].

(** A reset that races a timer: Reset is pressed while the opponent's move
    in a game it is about to win is pending, and O clicks again before
    that timer fires. *)
Definition resetRacesTimer (r : Js.random) : list event :=
  [Click 0; TimerFires r; Click 1; TimerFires r; Click 3;
   ResetPressed; Click 0; TimerFires r; TimerFires r].

End Loop.

(** The states of runs in which Reset is not pressed while a timer is
    pending.  (A timer that outlives a reset writes to the board of the
    game that was reset; the winner the effect stores for that board then
    stays when the next timer replaces the board, as in
    [Loop.resetRacesTimer].) *)
Definition reachable (st : state) : Prop :=
  ∃ c, Loop.reachedCalmly c ∧ Loop.current c = st.

(** * Properties *)

Section scan.
Variable b : list cell.

Lemma scanLines_cons_complete a c d m rest :
  complete b (a, c, d) m →
  scanLines b ((a, c, d) :: rest) = Some (WinnerInfo m (a, c, d)).
Proof.
  intros (Ha & Hc & Hd). simpl in *. rewrite Ha, Hc, Hd.
  by rewrite !bool_decide_eq_true_2.
Qed.

Lemma scanLines_cons_incomplete l rest :
  ¬ completed b l → scanLines b (l :: rest) = scanLines b rest.
Proof.
  destruct l as [[a c] d]. intros Hn. simpl.
  destruct (Js.get b a) as [| |m] eqn:Ha; try done.
  destruct (bool_decide _ && bool_decide _) eqn:E; [|done].
  apply andb_true_iff in E as [E1 E2].
  apply bool_decide_eq_true_1 in E1, E2.
  exfalso. apply Hn. exists m. by repeat split.
Qed.

Lemma scanLines_Some ls w :
  scanLines b ls = Some w ↔
  ∃ pre post, ls = pre ++ line_of w :: post
    ∧ complete b (line_of w) (winner_of w)
    ∧ ∀ l, l ∈ pre → ¬ completed b l.
Proof.
  induction ls as [|l ls IH].
  - split; [done|]. intros (pre & post & E & _). by destruct pre.
  - destruct (decide (completed b l)) as [Hc|Hn].
    + destruct Hc as [m Hm]. destruct l as [[a c] d].
      rewrite (scanLines_cons_complete _ _ _ _ _ Hm). split.
      * intros [= <-]. exists [], ls. simpl. split_and!; [done..|].
        intros l Hl. by apply elem_of_nil in Hl.
      * intros (pre & post & E & Hw & Hpre). destruct pre as [|p pre].
        -- simpl in E. injection E as El _. destruct w as [wm wl].
           simpl in *. subst wl. f_equal. f_equal.
           destruct Hm as [Hm _], Hw as [Hw _]. simpl in *. congruence.
        -- simpl in E. injection E as <- _. exfalso.
           apply (Hpre (a, c, d)); [left|by exists m].
    + rewrite (scanLines_cons_incomplete _ _ Hn), IH. split.
      * intros (pre & post & -> & Hw & Hpre). exists (l :: pre), post.
        split_and!; [done..|]. intros l' [->|Hl]%elem_of_cons; auto.
      * intros (pre & post & E & Hw & Hpre). destruct pre as [|p pre].
        -- simpl in E. injection E as El _. exfalso. apply Hn.
           exists (winner_of w). by rewrite El.
        -- simpl in E. injection E as _ ->. exists pre, post.
           split_and!; [done..|]. intros l' Hl. apply Hpre. by right.
Qed.

Lemma scanLines_None ls :
  scanLines b ls = None ↔ ∀ l, l ∈ ls → ¬ completed b l.
Proof.
  induction ls as [|l ls IH].
  - split; [|done]. intros _ l Hl. by apply elem_of_nil in Hl.
  - destruct (decide (completed b l)) as [Hc|Hn].
    + destruct Hc as [m Hm]. destruct l as [[a c] d].
      rewrite (scanLines_cons_complete _ _ _ _ _ Hm). split; [done|].
      intros H. exfalso. apply (H (a, c, d)); [left|by exists m].
    + rewrite (scanLines_cons_incomplete _ _ Hn), IH. split.
      * intros H l' [->|Hl]%elem_of_cons; auto.
      * intros H l' Hl. apply H. by right.
Qed.
End scan.

(** C2: [calculateWinner] scans the eight lines in the order rows, columns,
    diagonals; it returns the mark and the line of the first line of that
    order whose three squares hold the same mark, and nothing when no line
    is complete. *)
Theorem calculateWinner_first_complete_line (b : list cell) :
  lines = [ (0, 1, 2); (3, 4, 5); (6, 7, 8);
            (0, 3, 6); (1, 4, 7); (2, 5, 8);
            (0, 4, 8); (2, 4, 6) ]
  ∧ (∀ m l, calculateWinner b = Some (WinnerInfo m l) ↔
       ∃ pre post, lines = pre ++ l :: post
         ∧ complete b l m
         ∧ ∀ l', l' ∈ pre → ¬ completed b l')
  ∧ (calculateWinner b = None ↔ ∀ l, l ∈ lines → ¬ completed b l).
Proof.
  split; [reflexivity|]. split.
  - intros m l. apply (scanLines_Some b lines (WinnerInfo m l)).
  - apply scanLines_None.
Qed.

(** ** Array reads and writes *)

Lemma get_lookup (a : list cell) i c : a !! i = Some c → Js.get a i = c.
Proof. unfold Js.get. by intros ->. Qed.

Lemma get_ge (a : list cell) i : length a ≤ i → Js.get a i = Undefined.
Proof. intros H. unfold Js.get. by rewrite lookup_ge_None_2. Qed.

Lemma get_defined_lt (a : list cell) i : Js.get a i ≠ Undefined → i < length a.
Proof.
  intros H. destruct (decide (i < length a)); [done|].
  exfalso. apply H, get_ge. lia.
Qed.

Lemma get_Null_lookup (a : list cell) i : Js.get a i = Null ↔ a !! i = Some Null.
Proof.
  unfold Js.get. split; [|by intros ->].
  by destruct (a !! i) as [c|]; simpl; [intros ->|].
Qed.

Lemma put_lt (a : list cell) i v : i < length a → Js.put a i v = <[i := v]> a.
Proof. intros H. unfold Js.put. by rewrite decide_True. Qed.

Lemma get_put_eq (a : list cell) i v : Js.get (Js.put a i v) i = v.
Proof.
  unfold Js.put, Js.get. case_decide as H.
  - by rewrite list_lookup_insert_eq.
  - rewrite lookup_app_r by lia. rewrite lookup_app_r; rewrite length_replicate; [|lia].
    by replace (i - length a - (i - length a)) with 0 by lia.
Qed.

Lemma get_put_ne (a : list cell) i j v : i ≠ j → Js.get (Js.put a i v) j = Js.get a j.
Proof.
  intros Hne. unfold Js.put, Js.get. case_decide as H.
  - by rewrite list_lookup_insert_ne.
  - destruct (decide (j < length a)) as [Hj|Hj].
    + by rewrite lookup_app_l.
    + rewrite (lookup_ge_None_2 a j) by lia. rewrite lookup_app_r by lia.
      destruct (decide (j < i)) as [Hji|Hji].
      * rewrite lookup_app_l by (rewrite length_replicate; lia).
        rewrite lookup_replicate_2 by lia. done.
      * rewrite lookup_ge_None_2; [done|].
        rewrite length_app, length_replicate. simpl. lia.
Qed.

Lemma length_put_lt (a : list cell) i v : i < length a → length (Js.put a i v) = length a.
Proof. intros H. rewrite put_lt by done. apply length_insert. Qed.

Lemma includes_null_get (a : list cell) :
  Js.includes_null a = true ↔ ∃ i, Js.get a i = Null.
Proof.
  unfold Js.includes_null. rewrite bool_decide_eq_true, list_elem_of_lookup.
  by setoid_rewrite get_Null_lookup.
Qed.

Lemma includes_null_false (a : list cell) :
  Js.includes_null a = false ↔ ∀ i, Js.get a i ≠ Null.
Proof.
  rewrite <- not_true_iff_false, includes_null_get. split.
  - intros H i Hi. apply H. by exists i.
  - intros H [i Hi]. by apply (H i).
Qed.

(** ** Status evaluation *)

Lemma gameEffect_evaluate (st : state) :
  gameEffect st =
    match evaluate (board st) with
    | Won m l => (setWinningLine (Some l) (setWinner (Some m) st), None)
    | Drawn => (setIsDraw true st, None)
    | InProgress => (st, if xIsNext st then Some (board st) else None)
    end.
Proof.
  unfold gameEffect, evaluate.
  destruct (calculateWinner (board st)); [done|].
  destruct (Js.includes_null (board st)); simpl; [|done].
  by destruct (xIsNext st).
Qed.

Lemma evaluate_Won (b : list cell) m l :
  evaluate b = Won m l ↔ calculateWinner b = Some (WinnerInfo m l).
Proof.
  unfold evaluate. destruct (calculateWinner b) as [[m' l']|].
  - split; [by intros [= -> ->]|by intros [= -> ->]].
  - by destruct (negb _).
Qed.

Lemma evaluate_Drawn (b : list cell) :
  evaluate b = Drawn ↔ calculateWinner b = None ∧ Js.includes_null b = false.
Proof.
  unfold evaluate. destruct (calculateWinner b).
  - split; [done|]. by intros [? _].
  - destruct (Js.includes_null b); simpl; split; try done; by intros [? ?].
Qed.

Lemma evaluate_InProgress (b : list cell) :
  evaluate b = InProgress ↔ calculateWinner b = None ∧ Js.includes_null b = true.
Proof.
  unfold evaluate. destruct (calculateWinner b).
  - split; [done|]. by intros [? _].
  - destruct (Js.includes_null b); simpl; split; try done; by intros [? ?].
Qed.

Lemma calculateWinner_Some_completed (b : list cell) :
  is_Some (calculateWinner b) ↔ ∃ l, l ∈ lines ∧ completed b l.
Proof.
  split.
  - intros [[m l] (pre & post & E & Hc & _)%scanLines_Some]. simpl in *.
    exists l. split; [|by exists m]. unfold calculateWinner in *.
    rewrite E. apply elem_of_app. right. left.
  - intros (l & Hl & Hc).
    destruct (calculateWinner b) eqn:E; [by eexists|].
    exfalso. by apply (proj1 (scanLines_None b lines) E l).
Qed.

(** ** The opponent policy *)

Lemma filter_ext_elem {A} (P1 P2 : A → Prop)
    `{!∀ x, Decision (P1 x), !∀ x, Decision (P2 x)} (l : list A) :
  (∀ x, x ∈ l → P1 x ↔ P2 x) → filter P1 l = filter P2 l.
Proof.
  induction l as [|a l IH]; intros Hl; [done|].
  rewrite !filter_cons, IH by (intros; apply Hl; by right).
  assert (P1 a ↔ P2 a) as Ha by (apply Hl; left).
  destruct (decide (P1 a)), (decide (P2 a)); tauto || done.
Qed.

Lemma availableSquares_snoc (b : list cell) c :
  availableSquares (b ++ [c]) =
    availableSquares b ++ (if decide (c = Null) then [length b] else []).
Proof.
  unfold availableSquares. rewrite imap_app, omap_app. f_equal.
  simpl. rewrite Nat.add_0_r. by case_decide.
Qed.

Lemma emptyIndices_snoc (b : list cell) c :
  Spec.emptyIndices (b ++ [c]) =
    Spec.emptyIndices b ++ (if decide (c = Null) then [length b] else []).
Proof.
  unfold Spec.emptyIndices. rewrite length_app. simpl.
  rewrite Nat.add_1_r, seq_S, filter_app. simpl. f_equal.
  - apply filter_ext_elem. intros i [_ Hi]%elem_of_seq. simpl in Hi.
    unfold Js.get. by rewrite lookup_app_l.
  - rewrite filter_cons, filter_nil.
    assert (Js.get (b ++ [c]) (length b) = c) as Hc.
    { unfold Js.get. rewrite lookup_app_r by lia.
      by rewrite Nat.sub_diag. }
    destruct (decide (Js.get (b ++ [c]) (length b) = Null)) as [H|H];
      rewrite Hc in H; by case_decide.
Qed.

(** The squares the code collects are the empty indices in ascending
    order. *)
Lemma availableSquares_emptyIndices (b : list cell) :
  availableSquares b = Spec.emptyIndices b.
Proof.
  induction b as [|c b IH] using rev_ind; [done|].
  by rewrite availableSquares_snoc, emptyIndices_snoc, IH.
Qed.

Lemma elem_of_availableSquares (b : list cell) i :
  i ∈ availableSquares b ↔ Js.get b i = Null.
Proof.
  rewrite availableSquares_emptyIndices. unfold Spec.emptyIndices.
  rewrite list_elem_of_filter, elem_of_seq. split; [by intros [? _]|].
  intros H. split; [done|]. split; [lia|]. simpl.
  apply get_defined_lt. by rewrite H.
Qed.

Lemma availableSquares_nil (b : list cell) :
  availableSquares b = [] ↔ ∀ i, Js.get b i ≠ Null.
Proof.
  split.
  - intros E i Hi%elem_of_availableSquares. rewrite E in Hi.
    by apply elem_of_nil in Hi.
  - intros H. destruct (availableSquares b) as [|i l] eqn:E; [done|].
    exfalso. apply (H i), elem_of_availableSquares. rewrite E. left.
Qed.

Lemma winner_test_winsAt (b : list cell) m i :
  bool_decide (winner_of <$> calculateWinner (Js.put b i (Mark m)) = Some m)
  = Spec.winsAt b m i.
Proof.
  unfold Spec.winsAt, evaluate.
  destruct (calculateWinner (Js.put b i (Mark m))) as [w|]; simpl.
  - apply bool_decide_ext. split; [by intros [= ->]|by intros ->].
  - by destruct (negb _).
Qed.

Lemma tryWinningSquares_head (b : list cell) m l :
  tryWinningSquares b m l = found (head (filter (λ i, Spec.winsAt b m i) l)).
Proof.
  induction l as [|i l IH]; [done|]. simpl.
  rewrite winner_test_winsAt, filter_cons.
  destruct (Spec.winsAt b m i) eqn:E.
  - by rewrite decide_True.
  - rewrite decide_False; [exact IH|by intros []].
Qed.

Lemma tryCorners_head (b : list cell) l :
  tryCorners b l = found (head (filter (λ i, Js.get b i = Null) l)).
Proof.
  induction l as [|i l IH]; [done|]. simpl. rewrite filter_cons.
  case_bool_decide as H.
  - by rewrite decide_True.
  - by rewrite decide_False.
Qed.

Lemma found_eqb (o : option nat) : (found o =? -1)%Z = bool_decide (o = None).
Proof.
  destruct o as [i|]; simpl; [|done].
  apply Z.eqb_neq. lia.
Qed.

Lemma strategy1_found (b : list cell) :
  strategy1 b (availableSquares b) = found (Spec.immediateWin b).
Proof.
  unfold strategy1, Spec.immediateWin.
  by rewrite tryWinningSquares_head, availableSquares_emptyIndices.
Qed.

Lemma strategy2_found (b : list cell) o :
  strategy2 b (availableSquares b) (found o)
  = found (Spec.orElse o (Spec.immediateBlock b)).
Proof.
  unfold strategy2, Spec.immediateBlock.
  rewrite found_eqb, tryWinningSquares_head, availableSquares_emptyIndices.
  by destruct o.
Qed.

Lemma strategy3_found (b : list cell) o :
  strategy3 b (found o) = found (Spec.orElse o (Spec.centerPreference b)).
Proof.
  unfold strategy3, Spec.centerPreference. rewrite found_eqb.
  destruct o; [done|]. simpl. by case_bool_decide; case_decide.
Qed.

Lemma strategy4_found (b : list cell) o :
  strategy4 b (found o) = found (Spec.orElse o (Spec.cornerPreference b)).
Proof.
  unfold strategy4, Spec.cornerPreference.
  rewrite found_eqb, tryCorners_head. by destruct o.
Qed.

Lemma strategy5_found (b : list cell) r o :
  strategy5 (availableSquares b) r (found o)
  = Z.of_nat <$> Spec.orElse o (Spec.fallbackRandom b r).
Proof.
  unfold strategy5, Spec.fallbackRandom.
  rewrite found_eqb, availableSquares_emptyIndices. by destruct o.
Qed.

Lemma orElse_assoc (x y z : option nat) :
  Spec.orElse (Spec.orElse x y) z = Spec.orElse x (Spec.orElse y z).
Proof. by destruct x. Qed.

(** The value of [bestMove] is the index the cascade prescribes. *)
Lemma bestMove_cascade (b : list cell) r :
  bestMove b r = Z.of_nat <$> Spec.cascade b r.
Proof.
  unfold bestMove, Spec.cascade. simpl.
  rewrite strategy1_found, strategy2_found, strategy3_found,
    strategy4_found, strategy5_found.
  by rewrite !orElse_assoc.
Qed.

Lemma head_filter_Some {A} (P : A → Prop) `{!∀ x, Decision (P x)} l x :
  head (filter P l) = Some x → P x ∧ x ∈ l.
Proof.
  intros Hx%head_Some_elem_of. by apply list_elem_of_filter in Hx.
Qed.

Lemma floorRandomTimes_lt r n : 0 < n → Js.floorRandomTimes r n < n.
Proof.
  intros Hn. unfold Js.floorRandomTimes.
  apply Nat.Div0.div_lt_upper_bound. nia.
Qed.

Lemma cascade_empty (b : list cell) r i :
  Spec.cascade b r = Some i → Js.get b i = Null.
Proof.
  unfold Spec.cascade, Spec.orElse.
  destruct (Spec.immediateWin b) as [i1|] eqn:E1.
  { intros [= <-]. apply head_filter_Some in E1 as [_ Hin].
    by rewrite <- availableSquares_emptyIndices,
      elem_of_availableSquares in Hin. }
  destruct (Spec.immediateBlock b) as [i2|] eqn:E2.
  { intros [= <-]. apply head_filter_Some in E2 as [_ Hin].
    by rewrite <- availableSquares_emptyIndices,
      elem_of_availableSquares in Hin. }
  destruct (Spec.centerPreference b) as [i3|] eqn:E3.
  { intros [= <-]. unfold Spec.centerPreference in E3.
    case_decide; by simplify_eq. }
  destruct (Spec.cornerPreference b) as [i4|] eqn:E4.
  { intros [= <-]. by apply head_filter_Some in E4 as [Hin _]. }
  unfold Spec.fallbackRandom. rewrite <- availableSquares_emptyIndices.
  intros Hk. apply elem_of_availableSquares. by eapply list_elem_of_lookup_2.
Qed.

Lemma cascade_defined (b : list cell) r :
  (∃ i, Js.get b i = Null) → is_Some (Spec.cascade b r).
Proof.
  intros [j Hj%elem_of_availableSquares].
  unfold Spec.cascade, Spec.orElse, Spec.fallbackRandom.
  destruct (Spec.immediateWin b); [by eexists|].
  destruct (Spec.immediateBlock b); [by eexists|].
  destruct (Spec.centerPreference b); [by eexists|].
  destruct (Spec.cornerPreference b); [by eexists|].
  apply lookup_lt_is_Some, floorRandomTimes_lt.
  rewrite <- availableSquares_emptyIndices.
  destruct (availableSquares b); [by apply elem_of_nil in Hj|simpl; lia].
Qed.

Lemma makeComputerMove_cascade (b : list cell) r st i :
  Spec.cascade b r = Some i →
  makeComputerMove b r st = setXIsNext false (setBoard (<[i := Mark X]> b) st).
Proof.
  intros Hc. pose proof (cascade_empty _ _ _ Hc) as Hi.
  unfold makeComputerMove. rewrite decide_False.
  - rewrite bestMove_cascade, Hc. simpl. rewrite Nat2Z.id, put_lt; [done|].
    apply get_defined_lt. by rewrite Hi.
  - apply elem_of_availableSquares in Hi.
    destruct (availableSquares b); [by apply elem_of_nil in Hi|done].
Qed.

Lemma floorRandomTimes_onto k n :
  k < n → Js.floorRandomTimes (Js.Random k (n - k - 1)) n = k.
Proof.
  intros Hk. unfold Js.floorRandomTimes. simpl.
  replace (k + (n - k - 1) + 1) with n by lia.
  apply Nat.div_mul. lia.
Qed.

(** C1: for a board with an empty cell the index [makeComputerMove] plays
    is the one the cascade prescribes: immediate win, else immediate block
    (both over the empty indices in ascending order, first match), else the
    centre, else the first empty corner of 0, 2, 6, 8, else a random empty
    index; in the last case every empty index can be drawn. *)
Theorem makeComputerMove_follows_cascade (b : list cell) (r : Js.random) (st : state) :
  (∃ i, Js.get b i = Null) →
  (∃ i, Spec.cascade b r = Some i
      ∧ bestMove b r = Some (Z.of_nat i)
      ∧ makeComputerMove b r st
        = setXIsNext false (setBoard (<[i := Mark X]> b) st))
  ∧ (Spec.immediateWin b = None → Spec.immediateBlock b = None →
     Spec.centerPreference b = None → Spec.cornerPreference b = None →
     ∀ j, Js.get b j = Null → ∃ r', bestMove b r' = Some (Z.of_nat j)).
Proof.
  intros Hex. split.
  - destruct (cascade_defined b r Hex) as [i Hi]. exists i.
    split_and!; [done| |by apply makeComputerMove_cascade].
    by rewrite bestMove_cascade, Hi.
  - intros E1 E2 E3 E4 j Hj.
    apply elem_of_availableSquares, list_elem_of_lookup in Hj as [k Hk].
    exists (Js.Random k (length (Spec.emptyIndices b) - k - 1)).
    rewrite bestMove_cascade. unfold Spec.cascade, Spec.fallbackRandom.
    rewrite E1, E2, E3, E4. simpl.
    rewrite availableSquares_emptyIndices in Hk.
    rewrite floorRandomTimes_onto by (by eapply lookup_lt_Some).
    by rewrite Hk.
Qed.

Lemma makeComputerMove_follows_cascade_witness :
  (∃ i, Js.get [Mark O; Null; Null; Null; Mark X; Null; Null; Null; Mark O] i = Null)
  ∧ ∃ i, Spec.cascade [Mark O; Null; Null; Null; Mark X; Null; Null; Null; Mark O]
           (Js.Random 1 2) = Some i
       ∧ bestMove [Mark O; Null; Null; Null; Mark X; Null; Null; Null; Mark O]
           (Js.Random 1 2) = Some (Z.of_nat i)
       ∧ makeComputerMove
           [Mark O; Null; Null; Null; Mark X; Null; Null; Null; Mark O]
           (Js.Random 1 2) initialState
         = setXIsNext false
             (setBoard
                (<[i := Mark X]>
                   [Mark O; Null; Null; Null; Mark X; Null; Null; Null; Mark O])
                initialState).
Proof.
  assert (∃ i, Js.get [Mark O; Null; Null; Null; Mark X; Null; Null; Null; Mark O] i = Null)
    as Hex by (exists 1; reflexivity).
  split; [exact Hex|].
  exact (proj1 (makeComputerMove_follows_cascade _ (Js.Random 1 2) initialState Hex)).
Defined.

(** C6: for a board with an empty cell the index the policy selects holds
    [null] on the input board, whichever strategy selects it; the move
    writes that cell and no other. *)
Theorem policy_selects_empty_index (b : list cell) (r : Js.random) (st : state) :
  (∃ i, Js.get b i = Null) →
  ∃ i, bestMove b r = Some (Z.of_nat i)
     ∧ Js.get b i = Null
     ∧ Js.get (board (makeComputerMove b r st)) i = Mark X
     ∧ ∀ j, j ≠ i → Js.get (board (makeComputerMove b r st)) j = Js.get b j.
Proof.
  intros Hex. destruct (cascade_defined b r Hex) as [i Hi]. exists i.
  pose proof (cascade_empty _ _ _ Hi) as Hn.
  assert (i < length b) as Hlt by (apply get_defined_lt; by rewrite Hn).
  rewrite (makeComputerMove_cascade _ _ _ _ Hi). simpl.
  rewrite <- (put_lt b i (Mark X) Hlt).
  split_and!; [by rewrite bestMove_cascade, Hi|done|apply get_put_eq|].
  intros j Hj. by apply get_put_ne.
Qed.

Lemma policy_selects_empty_index_witness :
  (∃ i, Js.get [Mark O; Mark X; Mark O; Null; Mark X; Null; Mark X; Mark O; Mark X] i = Null)
  ∧ ∃ i, bestMove [Mark O; Mark X; Mark O; Null; Mark X; Null; Mark X; Mark O; Mark X]
           (Js.Random 1 0) = Some (Z.of_nat i)
       ∧ Js.get [Mark O; Mark X; Mark O; Null; Mark X; Null; Mark X; Mark O; Mark X] i = Null.
Proof.
  assert (∃ i, Js.get [Mark O; Mark X; Mark O; Null; Mark X; Null; Mark X; Mark O; Mark X] i = Null)
    as Hex by (exists 3; reflexivity).
  split; [exact Hex|].
  destruct (policy_selects_empty_index _ (Js.Random 1 0) initialState Hex)
    as (i & H1 & H2 & _).
  exists i. split; [exact H1|exact H2].
Defined.

(** C7: on the board X X _ / O O _ / _ _ _ the opponent plays index 2,
    completing its line 0, 1, 2; the choice is made by the first strategy,
    although index 5 is where the blocking loop would stop. *)
Theorem immediate_win_precedes_block (r : Js.random) (st : state) :
  let b := [Mark X; Mark X; Null; Mark O; Mark O; Null; Null; Null; Null] in
  bestMove b r = Some 2%Z
  ∧ strategy1 b (availableSquares b) = 2%Z
  ∧ tryWinningSquares b O (availableSquares b) = 5%Z
  ∧ makeComputerMove b r st
    = setXIsNext false
        (setBoard [Mark X; Mark X; Mark X; Mark O; Mark O; Null; Null; Null; Null] st)
  ∧ calculateWinner [Mark X; Mark X; Mark X; Mark O; Mark O; Null; Null; Null; Null]
    = Some (WinnerInfo X (0, 1, 2)).
Proof. by split_and!. Qed.

(** C8: on the board O O _ / _ X _ / _ _ _ no square wins for X, the
    blocking loop stops at index 2, where O would complete 0, 1, 2, and
    that is the index played: the centre and corner steps find [bestMove]
    already set and leave it. *)
Theorem block_precedes_center_and_corner (r : Js.random) (st : state) :
  let b := [Mark O; Mark O; Null; Null; Mark X; Null; Null; Null; Null] in
  let avail := availableSquares b in
  bestMove b r = Some 2%Z
  ∧ strategy1 b avail = (-1)%Z
  ∧ strategy2 b avail (strategy1 b avail) = 2%Z
  ∧ calculateWinner (Js.put b 2 (Mark O)) = Some (WinnerInfo O (0, 1, 2))
  ∧ strategy3 b 2%Z = 2%Z
  ∧ strategy4 b 2%Z = 2%Z
  ∧ makeComputerMove b r st
    = setXIsNext false
        (setBoard [Mark O; Mark O; Mark X; Null; Mark X; Null; Null; Null; Null] st).
Proof. by split_and!. Qed.

(** ** Handlers and the effect *)

Lemma handleClick_accepted i st :
  clickAccepted i st = true →
  handleClick i st = setXIsNext true (setBoard (Js.put (board st) i (Mark O)) st).
Proof.
  unfold clickAccepted, handleClick. intros H%negb_true_iff. by rewrite H.
Qed.

Lemma handleClick_ignored i st :
  clickAccepted i st = false → handleClick i st = st.
Proof.
  unfold clickAccepted, handleClick. intros H%negb_false_iff. by rewrite H.
Qed.

Lemma clickAccepted_true i st :
  clickAccepted i st = true ↔
  winner st = None ∧ isDraw st = false
  ∧ Js.truthy (Js.get (board st) i) = false ∧ xIsNext st = false.
Proof.
  unfold clickAccepted.
  rewrite negb_true_iff, !orb_false_iff, bool_decide_eq_false.
  split.
  - intros [[[Hw ?] ?] ?]. split_and!; try done.
    by destruct (winner st); [exfalso; apply Hw|].
  - intros (Hw & ? & ? & ?). split_and!; try done. rewrite Hw. by intros [].
Qed.

Lemma gameEffect_requests st b :
  (gameEffect st).2 = Some b ↔
  b = board st ∧ evaluate (board st) = InProgress ∧ xIsNext st = true.
Proof.
  rewrite gameEffect_evaluate.
  destruct (evaluate (board st)), (xIsNext st); simpl;
    (split; [intros Hb|intros (Hb & He & Hx)]); try done.
  - by injection Hb as <-.
  - by rewrite Hb.
Qed.

Lemma rendered_xIsNext st : xIsNext (rendered st) = xIsNext st.
Proof.
  unfold rendered. rewrite gameEffect_evaluate.
  by destruct (evaluate (board st)).
Qed.

Lemma rendered_board st : board (rendered st) = board st.
Proof.
  unfold rendered. rewrite gameEffect_evaluate.
  by destruct (evaluate (board st)).
Qed.

Lemma rendered_consistent st :
  length (board st) = 9 →
  Forall (λ c, c ≠ Undefined) (board st) →
  winner st = None → winningLine st = None → isDraw st = false →
  consistent (rendered st).
Proof.
  intros Hlen Hcells Hw Hl Hd. unfold rendered, gameEffect.
  destruct (calculateWinner (board st)) as [w|] eqn:Ec; simpl.
  - split; simpl; rewrite ?Ec; try done.
    rewrite Hd. symmetry. apply bool_decide_eq_false.
    unfold evaluate. by rewrite Ec.
  - destruct (Js.includes_null (board st)) eqn:En; simpl.
    + destruct (xIsNext st); split; simpl; rewrite ?Ec; try done;
        rewrite Hd; symmetry; apply bool_decide_eq_false;
        unfold evaluate; by rewrite Ec, En.
    + split; simpl; rewrite ?Ec; try done.
      symmetry. apply bool_decide_eq_true. unfold evaluate. by rewrite Ec, En.
Qed.

Lemma consistent_initial : consistent initialState.
Proof.
  split; try done. simpl. by repeat constructor.
Qed.

Lemma consistent_in_progress st :
  consistent st → evaluate (board st) = InProgress →
  winner st = None ∧ winningLine st = None ∧ isDraw st = false.
Proof.
  intros [_ _ Hw Hl Hd] He. rewrite Hw, Hl, Hd, He.
  apply evaluate_InProgress in He as [-> _]. done.
Qed.

Lemma consistent_fresh st :
  consistent st → winner st = None → isDraw st = false →
  evaluate (board st) = InProgress ∧ winningLine st = None.
Proof.
  intros [_ _ Hw Hl Hd] Hw' Hd'. rewrite Hw in Hw'. rewrite Hd in Hd'.
  apply bool_decide_eq_false in Hd'. rewrite Hl.
  unfold evaluate in *.
  destruct (calculateWinner (board st)); [done|].
  by destruct (negb _).
Qed.

Lemma consistent_get st i :
  consistent st → i < 9 → Js.get (board st) i ≠ Undefined.
Proof.
  intros [Hlen Hcells _ _ _] Hi.
  destruct (lookup_lt_is_Some_2 (board st) i) as [c Hc]; [lia|].
  rewrite (get_lookup _ _ _ Hc).
  by apply (proj1 (Forall_lookup _ _) Hcells i c).
Qed.

(** ** The move the effect asks for *)

Lemma requested_move_defined st b r :
  (gameEffect st).2 = Some b →
  ∃ i, Spec.cascade b r = Some i ∧ bestMove b r = Some (Z.of_nat i).
Proof.
  intros (-> & He & _)%gameEffect_requests.
  apply evaluate_InProgress in He as [_ Hn%includes_null_get].
  destruct (cascade_defined (board st) r Hn) as [i Hi].
  exists i. by rewrite bestMove_cascade, Hi.
Qed.

(** C9: from any state [resetGame] gives the initial state: nine empty
    cells, O to move, no winner, no draw, no winning line, the empty
    analysis text and no loading flag; the effect that follows changes
    nothing and requests no opponent move. *)
Theorem resetGame_restores_initial_state (st : state) :
  resetGame st = initialState
  ∧ board (resetGame st) = replicate 9 Null
  ∧ (∀ i, i < 9 → Js.get (board (resetGame st)) i = Null)
  ∧ sideToMove (resetGame st) = O
  ∧ winner (resetGame st) = None
  ∧ isDraw (resetGame st) = false
  ∧ winningLine (resetGame st) = None
  ∧ gameAnalysis (resetGame st) = emptyText
  ∧ shownAnalysis (resetGame st) = None
  ∧ isLoadingAnalysis (resetGame st) = false
  ∧ evaluate (board (resetGame st)) = InProgress
  ∧ gameEffect (resetGame st) = (initialState, None).
Proof.
  split_and!; try done.
  intros i Hi. simpl. do 9 (destruct i as [|i]; [done|]). lia.
Qed.

(** ** The analysis call *)





Section analysis_properties.

Variable toNumberGt0 : json → completion bool.








Lemma analysisReplied_storedText rp st :
  analysisReplied toNumberGt0 rp st
  = (Normal (),
     setIsLoadingAnalysis false (setGameAnalysis (storedText toNumberGt0 rp) st)).
Proof.
  unfold analysisReplied, tryFinally, tryCatch, tryBlock, storedText,
    mbind, action_bind, eval, modify.
  destruct rp as [| |result]; try done.
  destruct (hasCandidateText toNumberGt0 result) as [[|]|e]; try done.
  by destruct (firstPartText result).
Qed.

Lemma getLLMGameAnalysis_storedText rp st :
  getLLMGameAnalysis toNumberGt0 rp st
  = (Normal (),
     setIsLoadingAnalysis false (setGameAnalysis (storedText toNumberGt0 rp) st)).
Proof.
  unfold getLLMGameAnalysis, analysisRequested, mbind, action_bind, modify.
  by rewrite analysisReplied_storedText.
Qed.


End analysis_properties.

Lemma shownAnalysis_stored (t : value) st :
  toBoolean t = true →
  shownAnalysis (setIsLoadingAnalysis false (setGameAnalysis t st)) = t.
Proof. unfold shownAnalysis. simpl. by intros ->. Qed.



(** A reply of the expected shape: the text of its first part is stored and
    shown. *)
Example analysis_success_example (toNumberGt0 : json → completion bool) :
  let result :=
    JObj {[ "candidates" :=
      JArr [JObj {[ "content" :=
        JObj {[ "parts" := JArr [JObj {[ "text" := JStr "Well played." ]}] ]} ]}] ]} in
  let out := getLLMGameAnalysis toNumberGt0 (Json result) initialState in
  gameAnalysis out.2 = Some (JStr "Well played.")
  ∧ shownAnalysis out.2 = Some (JStr "Well played.").
Proof. by vm_compute. Qed.

(** * Further properties of the handlers, the policy and the view *)

(** ** The effect and the handlers *)

Lemma gameEffect_rendered st :
  gameEffect (rendered st) = (rendered st, (gameEffect st).2).
Proof.
  unfold rendered. rewrite (gameEffect_evaluate st).
  destruct (evaluate (board st)) as [|m l|] eqn:E; simpl.
  - rewrite gameEffect_evaluate, E. done.
  - rewrite gameEffect_evaluate. simpl. rewrite E. done.
  - rewrite gameEffect_evaluate. simpl. rewrite E. done.
Qed.

(** X1: running the effect a second time changes nothing: it stores the
    same winner, line or draw flag and makes the same request. *)
Theorem gameEffect_idempotent (st : state) :
  rendered (rendered st) = rendered st
  ∧ (gameEffect (rendered st)).2 = (gameEffect st).2
  ∧ board (rendered st) = board st
  ∧ xIsNext (rendered st) = xIsNext st
  ∧ gameAnalysis (rendered st) = gameAnalysis st
  ∧ isLoadingAnalysis (rendered st) = isLoadingAnalysis st.
Proof.
  split_and!.
  - unfold rendered at 1. by rewrite gameEffect_rendered.
  - by rewrite gameEffect_rendered.
  - apply rendered_board.
  - apply rendered_xIsNext.
  - unfold rendered. rewrite gameEffect_evaluate.
    by destruct (evaluate (board st)).
  - unfold rendered. rewrite gameEffect_evaluate.
    by destruct (evaluate (board st)).
Qed.

Lemma handleClick_keeps_marks i st j m :
  Js.get (board st) j = Mark m → Js.get (board (handleClick i st)) j = Mark m.
Proof.
  intros Hj. destruct (clickAccepted i st) eqn:Ha.
  - rewrite handleClick_accepted by done. simpl.
    destruct (decide (i = j)) as [->|Hne]; [|by rewrite get_put_ne].
    apply clickAccepted_true in Ha as (_ & _ & Ht & _).
    by rewrite Hj in Ht.
  - by rewrite handleClick_ignored.
Qed.

(** ** Counting marks and moves *)

Lemma countCell_insert (b : list cell) i old new c :
  b !! i = Some old →
  countCell c (<[i := new]> b) + (if decide (old = c) then 1 else 0)
  = countCell c b + (if decide (new = c) then 1 else 0).
Proof.
  intros Hi. pose proof (lookup_lt_Some _ _ _ Hi) as Hlt.
  rewrite <- (take_drop_middle b i old Hi) at 2.
  rewrite insert_take_drop by done. unfold countCell.
  rewrite !filter_app, !filter_cons, !length_app.
  destruct (decide (old = c)), (decide (new = c)); simpl; lia.
Qed.

(** ** The opponent policy *)

Lemma head_filter_is_Some {A} (P : A → Prop) `{!∀ x, Decision (P x)} l x :
  x ∈ l → P x → is_Some (head (filter P l)).
Proof.
  intros Hx HP.
  assert (x ∈ filter P l) as Hf by (by apply list_elem_of_filter).
  destruct (filter P l); [by apply elem_of_nil in Hf|by eexists].
Qed.

Lemma winsAt_true b m i :
  Spec.winsAt b m i = true ↔
  winner_of <$> calculateWinner (Js.put b i (Mark m)) = Some m.
Proof. rewrite <- winner_test_winsAt. apply bool_decide_eq_true. Qed.

Lemma immediateWin_Some b i :
  Spec.immediateWin b = Some i →
  Js.get b i = Null
  ∧ winner_of <$> calculateWinner (Js.put b i (Mark X)) = Some X.
Proof.
  intros [Hw Hi]%head_filter_Some.
  rewrite <- availableSquares_emptyIndices, elem_of_availableSquares in Hi.
  split; [done|]. apply winsAt_true. by apply Is_true_true.
Qed.

Lemma immediateWin_None b i :
  Spec.immediateWin b = None → Js.get b i = Null →
  winner_of <$> calculateWinner (Js.put b i (Mark X)) ≠ Some X.
Proof.
  intros Hn Hi Hw%winsAt_true.
  apply elem_of_availableSquares in Hi.
  rewrite availableSquares_emptyIndices in Hi.
  destruct (head_filter_is_Some (λ i, Spec.winsAt b X i) _ i Hi) as [j Hj];
    [by apply Is_true_true|].
  unfold Spec.immediateWin in Hn. congruence.
Qed.

(** X7: the opponent never misses a win: whenever some empty cell would
    complete a line for X, the move it makes leaves a board that
    [calculateWinner] reports as won by X. *)
Theorem opponent_takes_immediate_win (b : list cell) (r : Js.random) (st : state) :
  (∃ i, Js.get b i = Null
        ∧ winner_of <$> calculateWinner (Js.put b i (Mark X)) = Some X) →
  ∃ l, calculateWinner (board (makeComputerMove b r st)) = Some (WinnerInfo X l).
Proof.
  intros (i & Hi & Hw).
  destruct (Spec.immediateWin b) as [j|] eqn:Ej;
    [|by destruct (immediateWin_None b i Ej Hi)].
  assert (Spec.cascade b r = Some j) as Hc
    by (unfold Spec.cascade; by rewrite Ej).
  destruct (immediateWin_Some b j Ej) as [Hj Hwj].
  rewrite (makeComputerMove_cascade _ _ _ _ Hc). simpl.
  rewrite <- put_lt by (apply get_defined_lt; by rewrite Hj).
  destruct (calculateWinner (Js.put b j (Mark X))) as [[m l]|]; [|done].
  injection Hwj as ->. by exists l.
Qed.

Lemma opponent_takes_immediate_win_witness :
  (∃ i, Js.get [Mark X; Mark X; Null; Mark O; Mark O; Null; Null; Null; Null] i = Null
        ∧ winner_of <$> calculateWinner
            (Js.put [Mark X; Mark X; Null; Mark O; Mark O; Null; Null; Null; Null]
               i (Mark X)) = Some X)
  ∧ ∃ l, calculateWinner
           (board (makeComputerMove
                     [Mark X; Mark X; Null; Mark O; Mark O; Null; Null; Null; Null]
                     (Js.Random 0 0) initialState))
         = Some (WinnerInfo X l).
Proof.
  assert (∃ i, Js.get [Mark X; Mark X; Null; Mark O; Mark O; Null; Null; Null; Null] i = Null
        ∧ winner_of <$> calculateWinner
            (Js.put [Mark X; Mark X; Null; Mark O; Mark O; Null; Null; Null; Null]
               i (Mark X)) = Some X) as Hex
    by (exists 2; split; reflexivity).
  split; [exact Hex|].
  exact (opponent_takes_immediate_win _ (Js.Random 0 0) initialState Hex).
Defined.

(** X8: when no empty cell wins for X but some empty cell would complete a
    line for O, the opponent puts its X on such a cell. *)
Theorem opponent_blocks_immediate_threat (b : list cell) (r : Js.random) (st : state) :
  (∀ i, Js.get b i = Null →
        winner_of <$> calculateWinner (Js.put b i (Mark X)) ≠ Some X) →
  (∃ i, Js.get b i = Null
        ∧ winner_of <$> calculateWinner (Js.put b i (Mark O)) = Some O) →
  ∃ j, bestMove b r = Some (Z.of_nat j)
       ∧ Js.get b j = Null
       ∧ winner_of <$> calculateWinner (Js.put b j (Mark O)) = Some O
       ∧ Js.get (board (makeComputerMove b r st)) j = Mark X.
Proof.
  intros Hno (i & Hi & Hw).
  assert (Spec.immediateWin b = None) as E1.
  { destruct (Spec.immediateWin b) as [k|] eqn:Ek; [|done].
    destruct (immediateWin_Some b k Ek) as [Hk Hwk]. by destruct (Hno k Hk). }
  assert (is_Some (Spec.immediateBlock b)) as [j Ej].
  { apply (head_filter_is_Some (λ i, Spec.winsAt b O i) _ i).
    - by rewrite <- availableSquares_emptyIndices, elem_of_availableSquares.
    - by apply Is_true_true, winsAt_true. }
  assert (Spec.cascade b r = Some j) as Hc
    by (unfold Spec.cascade; by rewrite E1, Ej).
  pose proof Ej as [Hwj Hj]%head_filter_Some.
  rewrite <- availableSquares_emptyIndices, elem_of_availableSquares in Hj.
  exists j. split_and!; [by rewrite bestMove_cascade, Hc|done| |].
  - by apply winsAt_true, Is_true_true.
  - rewrite (makeComputerMove_cascade _ _ _ _ Hc). simpl.
    rewrite <- put_lt by (apply get_defined_lt; by rewrite Hj).
    apply get_put_eq.
Qed.

Lemma opponent_blocks_immediate_threat_witness :
  let b := [Mark O; Mark O; Null; Null; Mark X; Null; Null; Null; Null] in
  (∀ i, Js.get b i = Null →
        winner_of <$> calculateWinner (Js.put b i (Mark X)) ≠ Some X)
  ∧ (∃ i, Js.get b i = Null
         ∧ winner_of <$> calculateWinner (Js.put b i (Mark O)) = Some O)
  ∧ ∃ j, bestMove b (Js.Random 0 0) = Some (Z.of_nat j)
       ∧ Js.get b j = Null
       ∧ winner_of <$> calculateWinner (Js.put b j (Mark O)) = Some O
       ∧ Js.get (board (makeComputerMove b (Js.Random 0 0) initialState)) j = Mark X.
Proof.
  intros b.
  assert (∀ i, Js.get b i = Null →
        winner_of <$> calculateWinner (Js.put b i (Mark X)) ≠ Some X) as Hno.
  { intros i Hi. do 9 (destruct i as [|i]; [by vm_compute|]).
    by vm_compute in Hi. }
  assert (∃ i, Js.get b i = Null
         ∧ winner_of <$> calculateWinner (Js.put b i (Mark O)) = Some O) as Hex
    by (exists 2; split; reflexivity).
  split; [exact Hno|]. split; [exact Hex|].
  exact (opponent_blocks_immediate_threat b (Js.Random 0 0) initialState Hno Hex).
Defined.

(** X9: the opponent's reply to the first move does not depend on the
    random draw: it takes the centre, or corner 0 when O opened in the
    centre. *)
Theorem first_reply_is_centre_or_corner (i : nat) (r : Js.random) :
  i < 9 →
  bestMove (<[i := Mark O]> (replicate 9 Null)) r
  = Some (if decide (i = 4) then 0%Z else 4%Z).
Proof.
  intros Hi. do 9 (destruct i as [|i]; [reflexivity|]). lia.
Qed.

Lemma first_reply_is_centre_or_corner_witness :
  4 < 9 ∧ bestMove (<[4 := Mark O]> (replicate 9 Null)) (Js.Random 3 1) = Some 0%Z.
Proof.
  assert (4 < 9) as H by lia.
  split; [exact H|].
  exact (first_reply_is_centre_or_corner 4 (Js.Random 3 1) H).
Defined.

Lemma cascade_before_fallback (b : list cell) r c :
  c ∈ [0; 2; 4; 6; 8] → Js.get b c = Null →
  Spec.cascade b r
  = Spec.orElse (Spec.immediateWin b)
      (Spec.orElse (Spec.immediateBlock b)
         (Spec.orElse (Spec.centerPreference b) (Spec.cornerPreference b))).
Proof.
  intros Hc Hn. unfold Spec.cascade.
  destruct (Spec.immediateWin b); [done|].
  destruct (Spec.immediateBlock b); [done|]. simpl.
  unfold Spec.centerPreference. case_decide as H4; [done|]. simpl.
  assert (c ∈ [0; 2; 6; 8]) as Hc'.
  { repeat (apply elem_of_cons in Hc as [->|Hc]); try done;
      [left|right; left|right; right; left|right; right; right; left|].
    by apply elem_of_nil in Hc. }
  destruct (head_filter_is_Some (λ i, Js.get b i = Null) _ c Hc' Hn) as [j Hj].
  unfold Spec.cornerPreference. by rewrite Hj.
Qed.

(** X10: the random draw only decides between edge squares: when the
    centre or a corner is empty the move is the same for every draw, and on
    a nine-cell board the move is otherwise one of 1, 3, 5, 7. *)
Theorem random_draw_only_picks_edges (b : list cell) (r r' : Js.random) :
  ((∃ c, c ∈ [0; 2; 4; 6; 8] ∧ Js.get b c = Null) → bestMove b r = bestMove b r')
  ∧ (length b = 9 → (∀ c, c ∈ [0; 2; 4; 6; 8] → Js.get b c ≠ Null) →
     ∀ j, bestMove b r = Some j → j ∈ [1%Z; 3%Z; 5%Z; 7%Z]).
Proof.
  split.
  - intros (c & Hc & Hn).
    by rewrite !bestMove_cascade, !(cascade_before_fallback b _ c Hc Hn).
  - intros Hlen Hfull j. rewrite bestMove_cascade.
    destruct (Spec.cascade b r) as [k|] eqn:Ek; [|done].
    intros [= <-]. pose proof (cascade_empty _ _ _ Ek) as Hk.
    assert (k < 9) as Hlt
      by (rewrite <- Hlen; apply get_defined_lt; by rewrite Hk).
    do 9 (destruct k as [|k];
      [first [by (exfalso; eapply Hfull; [|exact Hk]; set_solver)
             | set_solver]|]).
    lia.
Qed.

Lemma random_draw_only_picks_edges_witness :
  (∃ c, c ∈ [0; 2; 4; 6; 8]
        ∧ Js.get [Mark O; Null; Null; Null; Mark X; Null; Null; Null; Null] c = Null)
  ∧ bestMove [Mark O; Null; Null; Null; Mark X; Null; Null; Null; Null] (Js.Random 0 0)
    = bestMove [Mark O; Null; Null; Null; Mark X; Null; Null; Null; Null] (Js.Random 5 1).
Proof.
  assert (∃ c, c ∈ [0; 2; 4; 6; 8]
        ∧ Js.get [Mark O; Null; Null; Null; Mark X; Null; Null; Null; Null] c = Null)
    as Hex.
  { exists 2. split; [|reflexivity]. right. left. }
  split; [exact Hex|].
  exact (proj1 (random_draw_only_picks_edges _ (Js.Random 0 0) (Js.Random 5 1)) Hex).
Defined.

(** X11: on a board without an empty cell [makeComputerMove] does nothing:
    it returns the state it was given, the turn included. *)
Theorem makeComputerMove_full_board (b : list cell) (r : Js.random) (st : state) :
  (∀ i, Js.get b i ≠ Null) → makeComputerMove b r st = st.
Proof.
  intros Hfull%availableSquares_nil. unfold makeComputerMove.
  by rewrite Hfull.
Qed.

Lemma makeComputerMove_full_board_witness :
  let b := [Mark O; Mark X; Mark O; Mark O; Mark X; Mark X; Mark X; Mark O; Mark O] in
  (∀ i, Js.get b i ≠ Null)
  ∧ makeComputerMove b (Js.Random 0 0) (setXIsNext true initialState)
    = setXIsNext true initialState.
Proof.
  intros b.
  assert (∀ i, Js.get b i ≠ Null) as Hfull.
  { intros i. do 9 (destruct i as [|i]; [discriminate|]). discriminate. }
  split; [exact Hfull|].
  exact (makeComputerMove_full_board b (Js.Random 0 0) _ Hfull).
Defined.

Lemma availableSquares_sorted_from (b : list cell) :
  StronglySorted lt (availableSquares b)
  ∧ Forall (λ i, i < length b) (availableSquares b).
Proof.
  induction b as [|c b [IHs IHl]] using rev_ind.
  - split; constructor.
  - rewrite availableSquares_snoc, length_app. simpl. split.
    + case_decide; [|by rewrite app_nil_r].
      apply StronglySorted_app_2; [|done|repeat constructor].
      intros x y Hx ->%list_elem_of_singleton.
      by apply (proj1 (Forall_forall _ _) IHl).
    + apply Forall_app. split.
      * eapply Forall_impl; [exact IHl|]. simpl. lia.
      * case_decide; repeat constructor. lia.
Qed.

Lemma availableSquares_length (b : list cell) :
  length (availableSquares b) = countCell Null b.
Proof.
  induction b as [|c b IH] using rev_ind; [done|].
  rewrite availableSquares_snoc, length_app, IH. unfold countCell.
  rewrite filter_app, length_app, filter_cons, filter_nil.
  by destruct (decide (c = Null)).
Qed.

(** X12: [availableSquares] lists exactly the indices whose cell is [null],
    each once, in ascending order. *)
Theorem availableSquares_lists_empty_cells (b : list cell) :
  (∀ i, i ∈ availableSquares b ↔ Js.get b i = Null)
  ∧ StronglySorted lt (availableSquares b)
  ∧ NoDup (availableSquares b)
  ∧ length (availableSquares b) = countCell Null b.
Proof.
  split_and!.
  - apply elem_of_availableSquares.
  - apply availableSquares_sorted_from.
  - induction b as [|c b IH] using rev_ind; [constructor|].
    rewrite availableSquares_snoc. case_decide; [|by rewrite app_nil_r].
    apply NoDup_app. split_and!; [done| |apply NoDup_singleton].
    intros x Hx ->%list_elem_of_singleton.
    pose proof (proj2 (availableSquares_sorted_from b)) as Hl.
    pose proof (proj1 (Forall_forall _ _) Hl _ Hx) as Hlt.
    simpl in Hlt. lia.
  - apply availableSquares_length.
Qed.

(** ** The view *)

Lemma consistent_winning_line st l :
  consistent st → winningLine st = Some l →
  ∃ m, winner st = Some m ∧ l ∈ lines ∧ complete (board st) l m.
Proof.
  intros [_ _ Hw Hl _] E. rewrite Hl in E. rewrite Hw.
  destruct (calculateWinner (board st)) as [[m l']|] eqn:Ec; [|done].
  injection E as ->. exists m. split; [done|].
  apply scanLines_Some in Ec as (pre & post & E & Hc & _). simpl in *.
  split; [|done]. rewrite E. apply elem_of_app. right. left.
Qed.

Lemma consistent_highlight (st : state) (i : nat) :
  consistent st →
  (isWinningSquare (winningLine st) i = true →
     i < 9 ∧ ∃ m, winner st = Some m
                  ∧ squareText (Js.get (board st) i) = Some m)
  ∧ (winner st = None → isWinningSquare (winningLine st) i = false)
  ∧ (winner st ≠ None →
     length (filter (λ j, isWinningSquare (winningLine st) j = true) (seq 0 9)) = 3).
Proof.
  intros Hc. split_and!.
  - destruct (winningLine st) as [[[a b] c]|] eqn:El; [|done].
    destruct (consistent_winning_line _ _ Hc El) as (m & Hm & _ & Ha & Hb & Hcc).
    simpl in *. intros Hi%bool_decide_eq_true.
    assert (Js.get (board st) i = Mark m) as Hg.
    { repeat (apply elem_of_cons in Hi as [->|Hi]); try done.
      by apply elem_of_nil in Hi. }
    split.
    + rewrite <- (consistent_length _ Hc). apply get_defined_lt. by rewrite Hg.
    + exists m. by rewrite Hg.
  - intros Hw. destruct (winningLine st) as [l|] eqn:El; [|done].
    destruct (consistent_winning_line _ _ Hc El) as (m & Hm & _). congruence.
  - intros Hw. destruct Hc as [_ _ Hw' Hl' _]. rewrite Hw' in Hw. rewrite Hl'.
    destruct (calculateWinner (board st)) as [[m l]|] eqn:Ec; [|done]. simpl.
    apply scanLines_Some in Ec as (pre & post & E & _ & _). simpl in E.
    assert (l ∈ lines) as Hin by (rewrite E; apply elem_of_app; right; left).
    unfold lines in Hin.
    repeat (apply elem_of_cons in Hin as [->|Hin]; [reflexivity|]).
    by apply elem_of_nil in Hin.
Qed.

Lemma consistent_status (st : state) :
  consistent st →
  (∀ m, getStatus st = "Winner: " +:+ markText m ↔
        ∃ l, evaluate (board st) = Won m l)
  ∧ (getStatus st = "It's a Draw!" ↔ evaluate (board st) = Drawn)
  ∧ (getStatus st = "Your turn (O)" ↔
     evaluate (board st) = InProgress ∧ sideToMove st = O)
  ∧ (getStatus st = "Computer's turn (X)" ↔
     evaluate (board st) = InProgress ∧ sideToMove st = X).
Proof.
  intros [_ _ Hw _ Hd].
  unfold getStatus, sideToMove, evaluate in *. rewrite Hw, Hd. clear Hw Hd.
  destruct (calculateWinner (board st)) as [[w l]|]; simpl;
    [|destruct (Js.includes_null (board st)); simpl];
    try destruct w; try destruct (xIsNext st);
    (split_and!; [intros m; destruct m|..]);
    (split; [intros H; try discriminate H; try done; try (by eexists)
            |intros H; try discriminate H; try done;
             try (by destruct H as [H1 H2]; discriminate);
             try (by destruct H as [l' H]; discriminate)]).
Qed.

Lemma consistent_button (st : state) :
  consistent st →
  (analysisButtonShown st = true ↔ evaluate (board st) ≠ InProgress).
Proof.
  intros [_ _ Hw _ Hd].
  unfold analysisButtonShown, evaluate in *. rewrite Hw, Hd. clear Hw Hd.
  destruct (calculateWinner (board st)) as [[w l]|]; simpl; [done|].
  destruct (Js.includes_null (board st)); simpl; [|done].
  split; [done|by intros H].
Qed.

(** ** handleClick without a bounds check *)

(** X16: [handleClick] does not check the index against the board: an
    accepted click at or past the end of the array makes the array grow to
    that index, the new slots in between being holes, and passes the
    turn. *)
Theorem handleClick_past_the_end_grows_board (i : nat) (st : state) :
  winner st = None → isDraw st = false → xIsNext st = false →
  length (board st) ≤ i →
  length (board (handleClick i st)) = S i
  ∧ Js.get (board (handleClick i st)) i = Mark O
  ∧ (∀ j, j < length (board st) →
       Js.get (board (handleClick i st)) j = Js.get (board st) j)
  ∧ (∀ j, length (board st) ≤ j < i →
       board (handleClick i st) !! j = Some Undefined)
  ∧ xIsNext (handleClick i st) = true.
Proof.
  intros Hw Hd Hx Hlen.
  assert (clickAccepted i st = true) as Ha.
  { apply clickAccepted_true. split_and!; try done.
    by rewrite get_ge. }
  rewrite handleClick_accepted by done. simpl. split_and!.
  - unfold Js.put. rewrite decide_False by lia.
    rewrite !length_app, length_replicate. simpl. lia.
  - apply get_put_eq.
  - intros j Hj. apply get_put_ne. lia.
  - intros j Hj. unfold Js.put. rewrite decide_False by lia.
    rewrite lookup_app_r by lia.
    rewrite lookup_app_l by (rewrite length_replicate; lia).
    apply lookup_replicate_2. lia.
  - done.
Qed.

Lemma handleClick_past_the_end_grows_board_witness :
  winner initialState = None ∧ isDraw initialState = false
  ∧ xIsNext initialState = false ∧ length (board initialState) ≤ 11
  ∧ length (board (handleClick 11 initialState)) = 12.
Proof.
  assert (length (board initialState) ≤ 11) as Hlen by (simpl; lia).
  split; [reflexivity|]. split; [reflexivity|]. split; [reflexivity|].
  split; [exact Hlen|].
  exact (proj1 (handleClick_past_the_end_grows_board 11 initialState
                  eq_refl eq_refl eq_refl Hlen)).
Defined.

(** ** The analysis call on replies of the expected shape *)

(** X17: a reply of the expected shape is never rejected: when the reply
    is an object whose [candidates] is an array starting with an object
    whose [content] is an object whose [parts] is an array starting with an
    object, the handler stores that object's [text], whatever else the
    reply holds, and shows it when it is a non-empty string. *)
Theorem well_formed_reply_is_stored
    (toNumberGt0 : json → completion bool) (st : state)
    (fields candidate contentFields part : gmap string json)
    (otherCandidates otherParts : list json) :
  fields !! "candidates" = Some (JArr (JObj candidate :: otherCandidates)) →
  candidate !! "content" = Some (JObj contentFields) →
  contentFields !! "parts" = Some (JArr (JObj part :: otherParts)) →
  let out := getLLMGameAnalysis toNumberGt0 (Json (JObj fields)) st in
  gameAnalysis out.2 = part !! "text"
  ∧ isLoadingAnalysis out.2 = false
  ∧ (∀ s, part !! "text" = Some (JStr s) → s ≠ EmptyString →
       shownAnalysis out.2 = Some (JStr s)).
Proof.
  intros Hc Hct Hp out. unfold out.
  assert (storedText toNumberGt0 (Json (JObj fields)) = part !! "text") as E.
  { unfold storedText, hasCandidateText, firstPartText, parts, content,
      candidates0, candidates. simpl. rewrite Hc. simpl.
    rewrite Hct. simpl. by rewrite Hp. }
  rewrite getLLMGameAnalysis_storedText, E.
  split_and!; [done..|].
  intros s -> Hs. apply shownAnalysis_stored. simpl.
  by rewrite bool_decide_eq_false_2.
Qed.

Lemma well_formed_reply_is_stored_witness :
  let part : gmap string json := {[ "text" := JStr "Nice fork." ]} in
  let contentFields : gmap string json := {[ "parts" := JArr [JObj part] ]} in
  let candidate : gmap string json := {[ "content" := JObj contentFields ]} in
  let fields : gmap string json := {[ "candidates" := JArr [JObj candidate] ]} in
  fields !! "candidates" = Some (JArr [JObj candidate])
  ∧ candidate !! "content" = Some (JObj contentFields)
  ∧ contentFields !! "parts" = Some (JArr [JObj part])
  ∧ gameAnalysis
      (getLLMGameAnalysis (λ _, Throw TypeError) (Json (JObj fields)) initialState).2
    = part !! "text".
Proof.
  intros part contentFields candidate fields.
  split; [reflexivity|]. split; [reflexivity|]. split; [reflexivity|].
  exact (proj1 (well_formed_reply_is_stored (λ _, Throw TypeError) initialState
                  fields candidate contentFields part [] []
                  eq_refl eq_refl eq_refl)).
Defined.


(** ** formatBoardForLLM *)

Lemma formatLoop_ext (b b' : list cell) i count s :
  (∀ j, i ≤ j < i + count →
        cellText (Js.get b j) = cellText (Js.get b' j)) →
  formatLoop b i count s = formatLoop b' i count s.
Proof.
  revert i s. induction count as [|count IH]; intros i s H; [done|].
  simpl. rewrite (H i) by lia. apply IH. intros j Hj. apply H. lia.
Qed.

Lemma get_shown_cells (b : list cell) j :
  j < 9 →
  Js.get ((λ i, shownCell (Js.get b i)) <$> seq 0 9) j = shownCell (Js.get b j).
Proof.
  intros Hj. apply get_lookup.
  rewrite list_lookup_fmap, lookup_seq_lt by done. done.
Qed.

Lemma formatBoardForLLM_shown (b : list cell) :
  formatBoardForLLM b
  = formatBoardForLLM ((λ i, shownCell (Js.get b i)) <$> seq 0 9).
Proof.
  unfold formatBoardForLLM. f_equal. apply formatLoop_ext.
  intros j Hj. rewrite get_shown_cells by lia.
  by destruct (Js.get b j).
Qed.

Lemma allCells_complete (l : list cell) :
  Forall (λ c, c ≠ Undefined) l → l ∈ allCells (length l).
Proof.
  induction 1 as [|c l Hc _ IH]; simpl; [left|].
  rewrite !elem_of_app.
  destruct c as [| |[]]; [done|left|right; left|right; right; left];
    by apply list_elem_of_fmap_2.
Qed.

Lemma parseBoard_all_boards :
  Forall (λ b, parseBoard (formatBoardForLLM b) = b) (allCells 9).
Proof. refine (bool_decide_unpack _ _). by vm_compute. Qed.

(** X19: the text sent for a board can be read back: parsing it gives the
    first nine cells as they show (a hole or a missing cell as empty), so
    two boards get the same text exactly when their nine cells show the
    same; for a board of nine cells without holes the parse is the
    board. *)
Theorem formatBoardForLLM_can_be_read_back (b : list cell) :
  parseBoard (formatBoardForLLM b) = (λ i, shownCell (Js.get b i)) <$> seq 0 9
  ∧ (∀ b', formatBoardForLLM b = formatBoardForLLM b' ↔
           ∀ i, i < 9 → shownCell (Js.get b i) = shownCell (Js.get b' i))
  ∧ (length b = 9 → Forall (λ c, c ≠ Undefined) b →
     parseBoard (formatBoardForLLM b) = b).
Proof.
  assert (∀ b : list cell,
    parseBoard (formatBoardForLLM b)
    = (λ i, shownCell (Js.get b i)) <$> seq 0 9) as Hparse.
  { intros b0. rewrite formatBoardForLLM_shown.
    apply (proj1 (Forall_forall _ _) parseBoard_all_boards).
    assert (Forall (λ c, c ≠ Undefined)
              ((λ i, shownCell (Js.get b0 i)) <$> seq 0 9)) as Hu.
    { apply Forall_fmap, Forall_forall. intros i _. simpl.
      by destruct (Js.get b0 i). }
    apply allCells_complete in Hu.
    by rewrite length_fmap, length_seq in Hu. }
  split_and!.
  - apply Hparse.
  - intros b'. split.
    + intros E i Hi. rewrite <- !get_shown_cells by done.
      by rewrite <- !Hparse, E.
    + intros H. rewrite (formatBoardForLLM_shown b), (formatBoardForLLM_shown b').
      f_equal. apply list_fmap_ext. intros k i Hk%lookup_seq. apply H. lia.
  - intros Hlen Hu. rewrite Hparse. apply list_eq. intros i.
    rewrite list_lookup_fmap.
    destruct (decide (i < 9)) as [Hi|Hi].
    + rewrite lookup_seq_lt by done. simpl.
      destruct (lookup_lt_is_Some_2 b i) as [c Hc]; [lia|].
      rewrite Hc, (get_lookup _ _ _ Hc).
      pose proof (proj1 (Forall_lookup _ _) Hu i c Hc).
      by destruct c.
    + rewrite lookup_seq_ge by lia. by rewrite lookup_ge_None_2 by lia.
Qed.

Lemma formatBoardForLLM_can_be_read_back_witness :
  let b := [Mark O; Mark O; Mark X; Mark O; Mark X; Null; Mark X; Null; Null] in
  length b = 9 ∧ Forall (λ c, c ≠ Undefined) b
  ∧ parseBoard (formatBoardForLLM b) = b.
Proof.
  intros b.
  assert (Forall (λ c, c ≠ Undefined) b) as Hu.
  { repeat (constructor; [discriminate|]). constructor. }
  split; [reflexivity|]. split; [exact Hu|].
  exact (proj2 (proj2 (formatBoardForLLM_can_be_read_back b)) eq_refl Hu).
Defined.

(** ** Who can win, and how a draw looks *)

Lemma complete_insert_elsewhere (b : list cell) i v l w :
  i ∉ [l.1.1; l.1.2; l.2] →
  complete (<[i := v]> b) l w → complete b l w.
Proof.
  intros Hi (Ha & Hb & Hc).
  assert (∀ j, j ∈ [l.1.1; l.1.2; l.2] →
               Js.get (<[i := v]> b) j = Js.get b j) as Hget.
  { intros j Hj. unfold Js.get. rewrite list_lookup_insert_ne; [done|].
    intros ->. by apply Hi. }
  rewrite Hget in Ha by (left).
  rewrite Hget in Hb by (right; left).
  rewrite Hget in Hc by (right; right; left).
  done.
Qed.

Lemma countCell_marks (b : list cell) :
  Forall (λ c, c ≠ Undefined) b → Null ∉ b →
  countCell (Mark O) b + countCell (Mark X) b = length b.
Proof.
  unfold countCell. induction 1 as [|c b Hc _ IH]; intros Hn; [done|].
  rewrite !filter_cons. simpl.
  assert (Null ∉ b) as Hn' by (intros H; apply Hn; by right).
  specialize (IH Hn').
  destruct c as [| |[]]; [done|exfalso; apply Hn; left|..];
    repeat case_decide; simplify_eq; simpl; lia.
Qed.

Lemma consistent_drawn (st : state) :
  consistent st →
  countCell (Mark O) (board st)
    = countCell (Mark X) (board st) + (if xIsNext st then 1 else 0) →
  evaluate (board st) = Drawn →
  countCell (Mark O) (board st) = 5
  ∧ countCell (Mark X) (board st) = 4
  ∧ countCell Null (board st) = 0
  ∧ xIsNext st = true
  ∧ (gameEffect st).2 = None.
Proof.
  intros Hc Hbal Hd.
  pose proof (consistent_length _ Hc) as Hlen.
  pose proof Hd as [_ Hfull]%evaluate_Drawn.
  assert (Null ∉ board st) as Hn.
  { intros H. apply not_true_iff_false in Hfull. apply Hfull.
    by apply bool_decide_eq_true. }
  pose proof (countCell_marks _ (consistent_cells _ Hc) Hn) as Hsum.
  rewrite Hlen in Hsum.
  assert (countCell Null (board st) = 0) as H0.
  { rewrite <- availableSquares_length.
    apply length_zero_iff_nil, availableSquares_nil.
    by apply includes_null_false. }
  destruct (xIsNext st); [|lia].
  split_and!; try lia; try done.
  rewrite gameEffect_evaluate, Hd. done.
Qed.


(** * The event loop *)

(** ** Events that do not touch the game *)

Lemma sameGame_refl st : sameGame st st.
Proof. by repeat split. Qed.

Lemma sameGame_consistent st st' : sameGame st st' → consistent st → consistent st'.
Proof.
  intros (Hb & Hx & Hw & Hd & Hl) [H1 H2 H3 H4 H5].
  split; by rewrite ?Hb, ?Hw, ?Hd, ?Hl.
Qed.

Lemma sameGame_gameEffect st st' :
  sameGame st st' → (gameEffect st').2 = (gameEffect st).2.
Proof.
  intros (Hb & Hx & _). rewrite !gameEffect_evaluate, Hb.
  destruct (evaluate (board st)); simpl; by rewrite ?Hx, ?Hb.
Qed.

Lemma sameGame_analysisRequested st : sameGame st (analysisRequested st).2.
Proof. by repeat split. Qed.

Lemma sameGame_analysisReplied toNumberGt0 rp st :
  sameGame st (analysisReplied toNumberGt0 rp st).2.
Proof. rewrite analysisReplied_storedText. by repeat split. Qed.

(** ** One event from a configuration without stale timers *)

Lemma steady_timers c :
  Loop.steady c →
  (Loop.timers c = [] ∧ (gameEffect (Loop.current c)).2 = None)
  ∨ (Loop.timers c = [board (Loop.current c)]
     ∧ (gameEffect (Loop.current c)).2 = Some (board (Loop.current c))
     ∧ evaluate (board (Loop.current c)) = InProgress
     ∧ xIsNext (Loop.current c) = true).
Proof.
  intros [_ Ht]. rewrite Ht.
  destruct ((gameEffect (Loop.current c)).2) as [b|] eqn:E; [right|by left].
  pose proof E as (-> & He & Hx)%gameEffect_requests. done.
Qed.

Lemma render_steady st n :
  consistent (rendered st) → Loop.steady (Loop.render st [] n).
Proof.
  intros Hc. split; [done|]. unfold Loop.render. simpl.
  change (gameEffect st).1 with (rendered st).
  by rewrite gameEffect_rendered.
Qed.

Lemma initial_steady : Loop.steady Loop.initial.
Proof. split; [apply consistent_initial|done]. Qed.

Lemma sameGame_steady c st' n :
  Loop.steady c → sameGame (Loop.current c) st' →
  Loop.steady (Loop.Config st' (Loop.timers c) n).
Proof.
  intros [Hc Ht] Hsg. split; simpl.
  - by eapply sameGame_consistent.
  - by rewrite Ht, (sameGame_gameEffect _ _ Hsg).
Qed.

(** The cases of one event: an accepted click, the timer the effect of the
    current state has set, Reset, and everything that leaves the game as
    it is (a refused click, a timer event with no timer pending, the
    analysis button and its reply). *)
Lemma react_cases (P : state → label → state → Prop) :
  (∀ i st, consistent st → i < 9 → clickAccepted i st = true →
     P st (Moved O i) (rendered (handleClick i st))) →
  (∀ r b move st, consistent st → (gameEffect st).2 = Some b →
     bestMove b r = Some move →
     P st (Moved X (Z.to_nat move)) (rendered (makeComputerMove b r st))) →
  (∀ st, consistent st → P st Restarted (rendered (resetGame st))) →
  (∀ st st', consistent st → sameGame st st' → P st Idle st') →
  ∀ c e, Loop.steady c →
    P (Loop.current c) (Loop.labelOf e c) (Loop.current (Loop.react e c)).
Proof.
  intros Hclick Htimer Hreset Hidle c e Hs. pose proof Hs as [Hc Ht].
  destruct e as [i|r| | |f rp]; unfold Loop.labelOf, Loop.placed, Loop.react.
  - destruct ((i <? 9) && clickAccepted i (Loop.current c)) eqn:E.
    + apply andb_true_iff in E as [Hi%Nat.ltb_lt Ha]. by apply Hclick.
    + apply Hidle; [done|apply sameGame_refl].
  - destruct (steady_timers c Hs) as [[E _]|(E & Hreq & He & Hx)]; rewrite E.
    + apply Hidle; [done|apply sameGame_refl].
    + destruct (requested_move_defined _ _ r Hreq) as (i & Hci & Hi).
      destruct (decide (availableSquares (board (Loop.current c)) = []))
        as [Hnil|_].
      { exfalso. pose proof (cascade_empty _ _ _ Hci) as Hin.
        apply elem_of_availableSquares in Hin. rewrite Hnil in Hin.
        by apply elem_of_nil in Hin. }
      rewrite Hi. simpl. by eapply Htimer.
  - by apply Hreset.
  - destruct (analysisButtonShown _ && negb _).
    + apply Hidle; [done|apply sameGame_analysisRequested].
    + apply Hidle; [done|apply sameGame_refl].
  - destruct (Loop.requests c) as [|n].
    + apply Hidle; [done|apply sameGame_refl].
    + apply Hidle; [done|apply sameGame_analysisReplied].
Qed.

Lemma react_consistent c e :
  Loop.steady c → consistent (Loop.current (Loop.react e c)).
Proof.
  revert c e. refine (react_cases (λ _ _ st', consistent st') _ _ _ _).
  - intros i st Hc Hi Ha. rewrite handleClick_accepted by done.
    apply clickAccepted_true in Ha as (Hw & Hd & _ & _).
    destruct (consistent_fresh _ Hc Hw Hd) as [_ Hl].
    destruct Hc as [Hlen Hcells _ _ _].
    apply rendered_consistent; simpl; try done.
    + rewrite length_put_lt; [done|lia].
    + rewrite put_lt by lia. by apply Forall_insert.
  - intros r b move st Hc Hb Hm.
    apply gameEffect_requests in Hb as (-> & He & _).
    destruct (consistent_in_progress _ Hc He) as (Hw & Hl & Hd).
    rewrite bestMove_cascade in Hm.
    destruct (Spec.cascade (board st) r) as [i|] eqn:Ei; [|done].
    rewrite (makeComputerMove_cascade _ _ _ _ Ei).
    destruct Hc as [Hlen Hcells _ _ _].
    apply rendered_consistent; simpl; try done.
    + by rewrite length_insert.
    + by apply Forall_insert.
  - intros st _. apply rendered_consistent; simpl; try done.
    by repeat constructor.
  - intros st st' Hc Hsg. by eapply sameGame_consistent.
Qed.

Lemma react_steady c e :
  Loop.steady c → (e = Loop.ResetPressed → Loop.timers c = []) →
  Loop.steady (Loop.react e c).
Proof.
  intros Hs Hcalm. pose proof (react_consistent c e Hs) as Hc'.
  destruct e as [i|r| | |f rp]; unfold Loop.react in *.
  - destruct ((i <? 9) && clickAccepted i (Loop.current c)) eqn:E; [|done].
    apply andb_true_iff in E as [_ Ha].
    assert (Loop.timers c = []) as ->.
    { destruct (steady_timers c Hs) as [[? _]|(_ & _ & _ & Hx)]; [done|].
      apply clickAccepted_true in Ha as (_ & _ & _ & Hx'). congruence. }
    apply render_steady. exact Hc'.
  - destruct (steady_timers c Hs) as [[E _]|(E & Hreq & He & Hx)];
      rewrite E in *; [done|].
    destruct (decide (availableSquares (board (Loop.current c)) = []))
      as [Hnil|_].
    { exfalso. destruct (requested_move_defined _ _ r Hreq) as (i & Hci & _).
      pose proof (cascade_empty _ _ _ Hci) as Hin.
      apply elem_of_availableSquares in Hin. rewrite Hnil in Hin.
      by apply elem_of_nil in Hin. }
    apply render_steady. exact Hc'.
  - rewrite (Hcalm eq_refl) in *. apply render_steady. exact Hc'.
  - destruct (analysisButtonShown _ && negb _); [|done].
    apply sameGame_steady; [done|apply sameGame_analysisRequested].
  - destruct (Loop.requests c) as [|n]; [done|].
    apply sameGame_steady; [done|apply sameGame_analysisReplied].
Qed.

(** What one event does to the game, by the mark it places. *)
Lemma react_game c e :
  Loop.steady c →
  match Loop.labelOf e c with
  | Moved m i =>
      evaluate (board (Loop.current c)) = InProgress
      ∧ sideToMove (Loop.current c) = m
      ∧ Js.get (board (Loop.current c)) i = Null
      ∧ board (Loop.current (Loop.react e c))
        = <[i := Mark m]> (board (Loop.current c))
      ∧ sideToMove (Loop.current (Loop.react e c)) = opposite m
  | Idle => sameGame (Loop.current c) (Loop.current (Loop.react e c))
  | Restarted =>
      board (Loop.current (Loop.react e c)) = replicate 9 Null
      ∧ xIsNext (Loop.current (Loop.react e c)) = false
  end.
Proof.
  revert c e.
  refine (react_cases
            (λ st l st',
               match l with
               | Moved m i =>
                   evaluate (board st) = InProgress
                   ∧ sideToMove st = m
                   ∧ Js.get (board st) i = Null
                   ∧ board st' = <[i := Mark m]> (board st)
                   ∧ sideToMove st' = opposite m
               | Idle => sameGame st st'
               | Restarted =>
                   board st' = replicate 9 Null ∧ xIsNext st' = false
               end) _ _ _ _); unfold sideToMove.
  - intros i st Hc Hi Ha.
    rewrite rendered_board, rendered_xIsNext, handleClick_accepted by done.
    simpl.
    apply clickAccepted_true in Ha as (Hw & Hd & Ht & Hx).
    destruct (consistent_fresh _ Hc Hw Hd) as [He _].
    pose proof (consistent_get _ i Hc Hi) as Hu.
    rewrite Hx. split_and!; [done|done| |  |done].
    + by destruct (Js.get (board st) i).
    + rewrite put_lt; [done|]. by rewrite (consistent_length _ Hc).
  - intros r b move st Hc Hb Hm.
    destruct (requested_move_defined _ _ r Hb) as (j & Hj & Hj').
    rewrite Hm in Hj'. injection Hj' as ->. rewrite Nat2Z.id.
    rewrite rendered_board, rendered_xIsNext,
      (makeComputerMove_cascade _ _ _ _ Hj). simpl.
    apply gameEffect_requests in Hb as (-> & He & ->).
    split_and!; [done|done|by eapply cascade_empty|done|done].
  - intros st _. by rewrite rendered_board, rendered_xIsNext.
  - by intros st st' _ Hsg.
Qed.

Lemma placed_label c e m i :
  Loop.placed e c = Some (m, i) →
  e ≠ Loop.ResetPressed ∧ Loop.labelOf e c = Moved m i.
Proof.
  intros Hp. split; [by intros ->|].
  unfold Loop.labelOf. rewrite Hp. by destruct e.
Qed.

Lemma labelOf_not_restarted e c :
  e ≠ Loop.ResetPressed → Loop.labelOf e c ≠ Restarted.
Proof.
  intros He. destruct e as [k|r| | |f rp]; unfold Loop.labelOf; try done;
    by destruct (Loop.placed _ c) as [[m j]|].
Qed.

Lemma run_steady es c : Loop.steady c → Loop.calm es c → Loop.steady (Loop.run es c).
Proof.
  revert c. induction es as [|e es IH]; intros c Hs Hcalm; [done|].
  destruct Hcalm as [He Hrest]. simpl. apply IH; [|done].
  by apply react_steady.
Qed.

Lemma reachedCalmly_steady c : Loop.reachedCalmly c → Loop.steady c.
Proof.
  intros (es & Hcalm & <-). apply run_steady; [apply initial_steady|done].
Qed.

Lemma reachable_consistent st : reachable st → consistent st.
Proof. intros (c & Hr & <-). by apply reachedCalmly_steady. Qed.

(** ** The stored status and the click guard *)

(** C3: the status of a board is exactly one of drawn, won and in
    progress: drawn when no line is complete and no cell is empty, won when
    a line is complete (full board or not), in progress when no line is
    complete and a cell is empty.  The effect stores the win or the draw
    accordingly, and no reachable state holds both a winner and the draw
    flag ([reachable]: Reset is not pressed while a timer is pending). *)
Theorem evaluate_exactly_one_status (b : list cell) :
  (evaluate b = Drawn ↔
     (∀ l, l ∈ lines → ¬ completed b l) ∧ (∀ i, Js.get b i ≠ Null))
  ∧ ((∃ m l, evaluate b = Won m l) ↔ ∃ l, l ∈ lines ∧ completed b l)
  ∧ (∀ m l, evaluate b = Won m l → l ∈ lines ∧ complete b l m)
  ∧ (evaluate b = InProgress ↔
     (∀ l, l ∈ lines → ¬ completed b l) ∧ ∃ i, Js.get b i = Null)
  ∧ (∀ st, board st = b →
       gameEffect st =
         match evaluate b with
         | Won m l => (setWinningLine (Some l) (setWinner (Some m) st), None)
         | Drawn => (setIsDraw true st, None)
         | InProgress => (st, if xIsNext st then Some b else None)
         end)
  ∧ (∀ st, board st = b → reachable st →
       (∀ m, winner st = Some m ↔ ∃ l, evaluate b = Won m l)
       ∧ (isDraw st = true ↔ evaluate b = Drawn)
       ∧ ¬ (winner st ≠ None ∧ isDraw st = true)).
Proof.
  split_and!.
  - rewrite evaluate_Drawn, <- includes_null_false.
    unfold calculateWinner. by rewrite scanLines_None.
  - rewrite <- calculateWinner_Some_completed. split.
    + intros (m & l & H%evaluate_Won). by eexists.
    + intros [[m l] H]. exists m, l. by apply evaluate_Won.
  - intros m l (pre & post & E & Hc & _)%evaluate_Won%scanLines_Some.
    simpl in *. split; [|done]. rewrite E. apply elem_of_app. right. left.
  - rewrite evaluate_InProgress, includes_null_get.
    unfold calculateWinner. by rewrite scanLines_None.
  - intros st <-. apply gameEffect_evaluate.
  - intros st <- [Hlen Hcells Hw Hl Hd]%reachable_consistent.
    assert (∀ m, winner st = Some m ↔ ∃ l, evaluate (board st) = Won m l) as HW.
    { intros m. rewrite Hw. unfold evaluate.
      destruct (calculateWinner (board st)) as [[m' l']|]; simpl.
      - split; [intros [= ->]; by eexists|by intros [l [= -> _]]].
      - split; [done|]. intros [l H]. by destruct (negb _). }
    assert (isDraw st = true ↔ evaluate (board st) = Drawn) as HD.
    { rewrite Hd. apply bool_decide_eq_true. }
    split_and!; [done..|].
    intros [Hw' Hd']. apply HD in Hd'.
    destruct (winner st) as [m|] eqn:Em; [|done].
    destruct (proj1 (HW m) eq_refl) as [l El]. congruence.
Qed.

Lemma evaluate_exactly_one_status_witness :
  reachable initialState
  ∧ ¬ (winner initialState ≠ None ∧ isDraw initialState = true).
Proof.
  assert (reachable initialState) as Hr.
  { exists Loop.initial. split; [|reflexivity].
    exists []. split; [exact I|reflexivity]. }
  split; [exact Hr|].
  exact (proj2 (proj2 (proj2 (proj2 (proj2 (proj2 (proj2
    (evaluate_exactly_one_status (board initialState))))))
    initialState eq_refl Hr))).
Defined.

(** C4: when the clicked cell is occupied, the game is won or drawn, or it
    is the opponent's turn, [handleClick] returns the state it was given;
    on reachable states ([reachable]: Reset is not pressed while a timer is
    pending) a status other than in progress is such a case.  No call
    changes a cell that holds a mark; an accepted click on one of the nine
    cells writes O to that empty cell alone and passes the turn. *)
Theorem handleClick_rejects_invalid_move (i : nat) (st : state) :
  (winner st ≠ None ∨ isDraw st = true
   ∨ (∃ m, Js.get (board st) i = Mark m) ∨ xIsNext st = true →
   handleClick i st = st)
  ∧ (reachable st → evaluate (board st) ≠ InProgress → handleClick i st = st)
  ∧ (∀ j m, Js.get (board st) j = Mark m →
       Js.get (board (handleClick i st)) j = Mark m)
  ∧ (reachable st → i < 9 → handleClick i st ≠ st →
       evaluate (board st) = InProgress ∧ sideToMove st = O
       ∧ Js.get (board st) i = Null
       ∧ handleClick i st
         = setXIsNext true (setBoard (<[i := Mark O]> (board st)) st)).
Proof.
  split_and!.
  - intros H. apply handleClick_ignored, not_true_iff_false.
    rewrite clickAccepted_true. intros (Hw & Hd & Ht & Hx).
    destruct H as [H|[H|[[m H]|H]]]; try congruence.
    by rewrite H in Ht.
  - intros Hr He. apply handleClick_ignored, not_true_iff_false.
    rewrite clickAccepted_true. intros (Hw & Hd & _ & _).
    apply reachable_consistent in Hr.
    by destruct (consistent_fresh _ Hr Hw Hd).
  - intros j m Hj. destruct (clickAccepted i st) eqn:Ha.
    + rewrite handleClick_accepted by done. simpl.
      destruct (decide (i = j)) as [->|Hne]; [|by rewrite get_put_ne].
      apply clickAccepted_true in Ha as (_ & _ & Ht & _).
      by rewrite Hj in Ht.
    + by rewrite handleClick_ignored.
  - intros Hr%reachable_consistent Hi Hne.
    destruct (clickAccepted i st) eqn:Ha;
      [|by rewrite handleClick_ignored in Hne].
    rewrite handleClick_accepted by done.
    apply clickAccepted_true in Ha as (Hw & Hd & Ht & Hx).
    destruct (consistent_fresh _ Hr Hw Hd) as [He _].
    pose proof (consistent_get _ i Hr Hi) as Hu.
    split_and!; [done|by unfold sideToMove; rewrite Hx| |].
    + by destruct (Js.get (board st) i).
    + rewrite put_lt; [done|]. by rewrite (consistent_length _ Hr).
Qed.

Lemma handleClick_rejects_invalid_move_witness :
  (∃ m, Js.get (board (setBoard [Mark O; Null; Null; Null; Mark X; Null; Null; Null; Null]
                         initialState)) 4 = Mark m)
  ∧ handleClick 4 (setBoard [Mark O; Null; Null; Null; Mark X; Null; Null; Null; Null]
                     initialState)
    = setBoard [Mark O; Null; Null; Null; Mark X; Null; Null; Null; Null] initialState.
Proof.
  assert (∃ m, Js.get (board (setBoard [Mark O; Null; Null; Null; Mark X; Null; Null; Null; Null]
                         initialState)) 4 = Mark m) as Hocc
    by (exists X; reflexivity).
  split; [exact Hocc|].
  exact (proj1 (handleClick_rejects_invalid_move 4 _)
           (or_intror (or_intror (or_introl Hocc)))).
Defined.

Lemma no_reset_calm es c : Loop.ResetPressed ∉ es → Loop.calm es c.
Proof.
  revert c. induction es as [|e es IH]; intros c Hn; [done|]. split.
  - intros ->. exfalso. apply Hn. left.
  - apply IH. intros H. apply Hn. by right.
Qed.

(** ** A timer that outlives a reset *)

(** C5: the turn order is broken by a timer that outlives a reset.  The
    effect never cancels the timer it sets and [makeComputerMove] does not
    look at [xIsNext]: after a click, a reset and another click, both of
    their timers fire one after the other, so X is placed twice in a row,
    the second time when it is O's turn; and after a click and a reset the
    pending timer places X on the board of the game that was reset, before
    O has moved. *)
Theorem stale_timer_moves_out_of_turn (r r' : Js.random) :
  let twice :=
    [Loop.Click 0; Loop.ResetPressed; Loop.Click 1;
     Loop.TimerFires r; Loop.TimerFires r'] in
  let before := Loop.run [Loop.Click 0; Loop.ResetPressed; Loop.Click 1;
                          Loop.TimerFires r] Loop.initial in
  let first := [Loop.Click 0; Loop.ResetPressed; Loop.TimerFires r] in
  Loop.labels twice Loop.initial
  = [Moved O 0; Restarted; Moved O 1; Moved X 4; Moved X 4]
  ∧ ¬ alternates O (Loop.labels twice Loop.initial)
  ∧ sideToMove (Loop.current before) = O
  ∧ Loop.placed (Loop.TimerFires r') before = Some (X, 4)
  ∧ board (Loop.current before)
    = [Mark O; Null; Null; Null; Mark X; Null; Null; Null; Null]
  ∧ board (Loop.current (Loop.run twice Loop.initial))
    = [Null; Mark O; Null; Null; Mark X; Null; Null; Null; Null]
  ∧ Loop.labels first Loop.initial = [Moved O 0; Restarted; Moved X 4]
  ∧ ¬ alternates O (Loop.labels first Loop.initial)
  ∧ board (Loop.current (Loop.run first Loop.initial))
    = [Mark O; Null; Null; Null; Mark X; Null; Null; Null; Null].
Proof.
  intros twice before first.
  assert (Loop.labels twice Loop.initial
          = [Moved O 0; Restarted; Moved O 1; Moved X 4; Moved X 4]) as E2
    by (vm_compute; reflexivity).
  assert (Loop.labels first Loop.initial
          = [Moved O 0; Restarted; Moved X 4]) as E1
    by (vm_compute; reflexivity).
  rewrite E1, E2.
  split_and!; try (vm_compute; reflexivity).
  - intros (_ & _ & _ & H & _). discriminate H.
  - intros (_ & H & _). discriminate H.
Qed.

(** X23: a timer that outlives a reset can leave a winner stored for a
    board that has none.  In [Loop.resetRacesTimer] the timer of the game
    that was reset completes X's line on the old board, the effect stores
    the winner, and the timer of the new game then puts its own board in
    place: the board is in progress with O to move, but the status line
    names X as the winner, the stored flags do not agree with the board,
    no timer is pending and every click is refused. *)
Theorem stale_timer_leaves_winner (r : Js.random) :
  let c := Loop.run (Loop.resetRacesTimer r) Loop.initial in
  let st := Loop.current c in
  board st = [Mark O; Null; Null; Null; Mark X; Null; Null; Null; Null]
  ∧ evaluate (board st) = InProgress
  ∧ sideToMove st = O
  ∧ winner st = Some X
  ∧ winningLine st = Some (2, 4, 6)
  ∧ getStatus st = "Winner: X"
  ∧ ¬ consistent st
  ∧ Loop.timers c = []
  ∧ (∀ i, Loop.react (Loop.Click i) c = c)
  ∧ (∀ r', Loop.react (Loop.TimerFires r') c = c).
Proof.
  intros c st.
  assert (winner st = Some X) as Hw by (vm_compute; reflexivity).
  assert (calculateWinner (board st) = None) as Hn by (vm_compute; reflexivity).
  assert (Loop.timers c = []) as Ht by (vm_compute; reflexivity).
  split; [vm_compute; reflexivity|]. split; [vm_compute; reflexivity|].
  split; [vm_compute; reflexivity|]. split; [exact Hw|].
  split; [vm_compute; reflexivity|]. split; [vm_compute; reflexivity|].
  split; [|split; [exact Ht|split]].
  - intros [_ _ Hw' _ _]. rewrite Hw, Hn in Hw'. discriminate Hw'.
  - intros i.
    assert (clickAccepted i st = false) as Ha.
    { unfold clickAccepted. rewrite Hw. reflexivity. }
    unfold Loop.react. cbv zeta. change (Loop.current c) with st.
    rewrite Ha, andb_false_r. reflexivity.
  - intros r'. unfold Loop.react. rewrite Ht. reflexivity.
Qed.

(** ** Runs in which Reset is not pressed while a timer is pending *)

Ltac calm_run := cbn [Loop.calm]; repeat split; intros H; discriminate H.

Lemma run_alternates es c :
  Loop.steady c → Loop.calm es c →
  alternates (sideToMove (Loop.current c)) (Loop.labels es c).
Proof.
  revert c. induction es as [|e es IH]; intros c Hs Hcalm; [done|].
  destruct Hcalm as [He Hcalm].
  pose proof (react_game c e Hs) as Hg.
  pose proof (react_steady c e Hs He) as Hs'.
  specialize (IH _ Hs' Hcalm). simpl.
  destruct (Loop.labelOf e c) as [m i| |]; simpl.
  - destruct Hg as (_ & <- & _ & _ & Hg). by rewrite <- Hg.
  - destruct Hg as (_ & Hx & _). unfold sideToMove in *. by rewrite <- Hx.
  - destruct Hg as [_ Hx]. unfold sideToMove in IH. by rewrite Hx in IH.
Qed.

(** X22: as long as Reset is not pressed while an opponent move is pending,
    the sides alternate: along every such run of events from the start the
    marks placed alternate, O first at the start and after every reset, and
    each event that places a mark finds its side to move and passes the
    turn. *)
Theorem turns_alternate_without_stale_timers (es : list Loop.event) :
  Loop.calm es Loop.initial →
  alternates O (Loop.labels es Loop.initial)
  ∧ ∀ e m i,
      Loop.placed e (Loop.run es Loop.initial) = Some (m, i) →
      sideToMove (Loop.current (Loop.run es Loop.initial)) = m
      ∧ sideToMove (Loop.current (Loop.react e (Loop.run es Loop.initial)))
        = opposite m.
Proof.
  intros Hcalm. split.
  - by apply (run_alternates es Loop.initial initial_steady).
  - intros e m i Hp.
    pose proof (run_steady es _ initial_steady Hcalm) as Hs.
    pose proof (react_game _ e Hs) as Hg.
    rewrite (proj2 (placed_label _ _ _ _ Hp)) in Hg.
    by destruct Hg as (_ & Hm & _ & _ & Hm').
Qed.

Lemma turns_alternate_without_stale_timers_witness :
  let es := [Loop.Click 0; Loop.TimerFires (Js.Random 0 0); Loop.Click 4;
             Loop.ResetPressed; Loop.Click 8] in
  Loop.calm es Loop.initial
  ∧ alternates O (Loop.labels es Loop.initial).
Proof.
  intros es.
  assert (Loop.calm es Loop.initial) as Hcalm.
  { cbn [Loop.calm es]. repeat split; intros H; discriminate H. }
  split; [exact Hcalm|].
  exact (proj1 (turns_alternate_without_stale_timers es Hcalm)).
Defined.

Lemma react_keeps_marks c e j m :
  Loop.steady c → e ≠ Loop.ResetPressed →
  Js.get (board (Loop.current c)) j = Mark m →
  Js.get (board (Loop.current (Loop.react e c))) j = Mark m.
Proof.
  intros Hs He Hj. pose proof (react_game c e Hs) as Hg.
  pose proof (labelOf_not_restarted e c He) as Hl.
  destruct (Loop.labelOf e c) as [m' i| |]; [| |done].
  - destruct Hg as (_ & _ & Hn & -> & _).
    assert (i ≠ j) as Hne by (intros ->; congruence).
    rewrite <- put_lt by (apply get_defined_lt; by rewrite Hn).
    by rewrite get_put_ne.
  - destruct Hg as (-> & _). done.
Qed.

(** X2: as long as Reset is not pressed, no mark is removed or replaced:
    from a configuration reached without a reset racing a timer, after any
    events other than Reset every cell that held a mark holds the same
    mark. *)
Theorem marks_are_never_overwritten (c : Loop.config) (es : list Loop.event) :
  Loop.reachedCalmly c → Loop.ResetPressed ∉ es →
  ∀ j m, Js.get (board (Loop.current c)) j = Mark m →
         Js.get (board (Loop.current (Loop.run es c))) j = Mark m.
Proof.
  intros Hs%reachedCalmly_steady. revert c Hs.
  induction es as [|e es IH]; intros c Hs Hn j m Hj; [done|].
  assert (e ≠ Loop.ResetPressed) as He by (intros ->; apply Hn; left).
  simpl. apply IH.
  - apply react_steady; [done|by intros ->].
  - intros H. apply Hn. by right.
  - by apply react_keeps_marks.
Qed.

Lemma marks_are_never_overwritten_witness :
  let c := Loop.run [Loop.Click 4] Loop.initial in
  let es := [Loop.Click 4; Loop.TimerFires (Js.Random 0 0); Loop.Click 4;
             Loop.AnalysisPressed] in
  Loop.reachedCalmly c ∧ (Loop.ResetPressed ∉ es)
  ∧ Js.get (board (Loop.current (Loop.run es c))) 4 = Mark O.
Proof.
  intros c es.
  assert (Loop.reachedCalmly c) as Hr.
  { exists [Loop.Click 4]. split; [calm_run|reflexivity]. }
  assert (Loop.ResetPressed ∉ es) as Hn.
  { intros H. repeat (apply elem_of_cons in H as [H|H]; [discriminate H|]).
    by apply elem_of_nil in H. }
  split; [exact Hr|]. split; [exact Hn|].
  exact (marks_are_never_overwritten c es Hr Hn 4 O eq_refl).
Defined.

(** X3: a finished game is final as long as no reset has raced a timer: in
    such a configuration whose board is won or drawn no timer is pending,
    clicks and timer events change nothing, the analysis button and its
    reply change only the analysis fields, and Reset gives the initial
    state. *)
Theorem finished_game_only_restarts (c : Loop.config) (e : Loop.event) :
  Loop.reachedCalmly c → evaluate (board (Loop.current c)) ≠ InProgress →
  Loop.timers c = []
  ∧ Loop.timers (Loop.react e c) = []
  ∧ match e with
    | Loop.Click _ | Loop.TimerFires _ => Loop.react e c = c
    | Loop.ResetPressed => Loop.current (Loop.react e c) = initialState
    | Loop.AnalysisPressed | Loop.ReplyArrives _ _ =>
        sameGame (Loop.current c) (Loop.current (Loop.react e c))
    end.
Proof.
  intros Hs%reachedCalmly_steady He.
  assert (Loop.timers c = []) as Ht.
  { destruct (steady_timers c Hs) as [[? _]|(_ & _ & ? & _)]; done. }
  split; [done|]. destruct Hs as [Hc _].
  destruct e as [i|r| | |f rp]; unfold Loop.react.
  - assert (clickAccepted i (Loop.current c) = false) as ->.
    { apply not_true_iff_false. intros (Hw & Hd & _)%clickAccepted_true.
      by destruct (consistent_fresh _ Hc Hw Hd). }
    by rewrite andb_false_r.
  - by rewrite Ht.
  - by rewrite Ht.
  - destruct (analysisButtonShown _ && negb _); [|split; [done|apply sameGame_refl]].
    split; [done|apply sameGame_analysisRequested].
  - destruct (Loop.requests c); [split; [done|apply sameGame_refl]|].
    split; [done|apply sameGame_analysisReplied].
Qed.

Lemma opponentWins_reached : Loop.reachedCalmly (Loop.run Loop.opponentWins Loop.initial).
Proof. exists Loop.opponentWins. split; [calm_run|reflexivity]. Defined.

Lemma drawnGame_reached : Loop.reachedCalmly (Loop.run Loop.drawnGame Loop.initial).
Proof. exists Loop.drawnGame. split; [calm_run|reflexivity]. Defined.

Lemma finished_game_only_restarts_witness :
  let c := Loop.run Loop.opponentWins Loop.initial in
  Loop.reachedCalmly c ∧ evaluate (board (Loop.current c)) ≠ InProgress
  ∧ Loop.react (Loop.Click 5) c = c.
Proof.
  intros c.
  assert (evaluate (board (Loop.current c)) ≠ InProgress) as He
    by (vm_compute; intros H; discriminate H).
  split; [exact opponentWins_reached|]. split; [exact He|].
  exact (proj2 (proj2 (finished_game_only_restarts c (Loop.Click 5)
                         opponentWins_reached He))).
Defined.

(** ** Counting marks and moves *)

Lemma react_balanced c e :
  Loop.steady c →
  balanced (Loop.current c) → balanced (Loop.current (Loop.react e c)).
Proof.
  intros Hs Hb. pose proof (react_game c e Hs) as Hg. unfold balanced in *.
  destruct (Loop.labelOf e c) as [m i| |].
  - destruct Hg as (_ & Hm & Hn%get_Null_lookup & Hb' & Hm'). rewrite Hb'.
    pose proof (countCell_insert _ _ _ (Mark m) (Mark O) Hn) as HO.
    pose proof (countCell_insert _ _ _ (Mark m) (Mark X) Hn) as HX.
    unfold sideToMove in Hm, Hm'.
    rewrite decide_False in HO by done. rewrite decide_False in HX by done.
    destruct (xIsNext (Loop.current c)),
      (xIsNext (Loop.current (Loop.react e c))), m; try done; simpl in *;
      repeat case_decide; try done; lia.
  - destruct Hg as (Hb' & Hx & _). by rewrite Hb', Hx.
  - destruct Hg as [Hb' Hx]. by rewrite Hb', Hx.
Qed.

Lemma run_balanced es c :
  Loop.steady c → Loop.calm es c →
  balanced (Loop.current c) → balanced (Loop.current (Loop.run es c)).
Proof.
  revert c. induction es as [|e es IH]; intros c Hs Hcalm Hb; [done|].
  destruct Hcalm as [He Hcalm].
  simpl. apply IH; [by apply react_steady|done|by apply react_balanced].
Qed.

Lemma reachedCalmly_balanced c : Loop.reachedCalmly c → balanced (Loop.current c).
Proof.
  intros (es & Hcalm & <-). by apply run_balanced; [apply initial_steady|..].
Qed.

(** X4: as long as no reset has raced a timer, the board has nine cells,
    each empty or marked, and O has placed as many marks as X, plus one
    exactly when it is X's turn. *)
Theorem reachable_board_is_balanced (c : Loop.config) :
  Loop.reachedCalmly c →
  length (board (Loop.current c)) = 9
  ∧ (∀ i, i < 9 → Js.get (board (Loop.current c)) i = Null
                  ∨ ∃ m, Js.get (board (Loop.current c)) i = Mark m)
  ∧ countCell (Mark O) (board (Loop.current c))
    = countCell (Mark X) (board (Loop.current c))
      + (if xIsNext (Loop.current c) then 1 else 0).
Proof.
  intros Hr. pose proof (reachedCalmly_steady _ Hr) as [Hc _].
  split_and!.
  - apply Hc.
  - intros i Hi. pose proof (consistent_get _ _ Hc Hi).
    destruct (Js.get (board (Loop.current c)) i);
      [done|by left|right; by eexists].
  - by apply reachedCalmly_balanced.
Qed.

Lemma reachable_board_is_balanced_witness :
  let c := Loop.run Loop.opponentWins Loop.initial in
  Loop.reachedCalmly c
  ∧ countCell (Mark O) (board (Loop.current c))
    = countCell (Mark X) (board (Loop.current c))
      + (if xIsNext (Loop.current c) then 1 else 0).
Proof.
  intros c. split; [exact opponentWins_reached|].
  exact (proj2 (proj2 (reachable_board_is_balanced c opponentWins_reached))).
Defined.

Lemma react_moves c e :
  Loop.steady c → e ≠ Loop.ResetPressed →
  countMoves [Loop.labelOf e c]
    + countCell Null (board (Loop.current (Loop.react e c)))
  = countCell Null (board (Loop.current c)).
Proof.
  intros Hs He. pose proof (react_game c e Hs) as Hg.
  pose proof (labelOf_not_restarted e c He) as Hl.
  destruct (Loop.labelOf e c) as [m i| |]; [| |done].
  - destruct Hg as (_ & _ & Hn%get_Null_lookup & -> & _).
    pose proof (countCell_insert _ _ _ (Mark m) Null Hn) as H.
    rewrite decide_True, decide_False in H by done. simpl. lia.
  - destruct Hg as (-> & _). done.
Qed.

(** X5: every move fills one empty cell, so a game has at most nine: from a
    configuration reached without a reset racing a timer, after any events
    other than Reset the marks placed and the cells still empty add up to
    the cells that were empty. *)
Theorem moves_and_empty_cells_add_up (c : Loop.config) (es : list Loop.event) :
  Loop.reachedCalmly c → Loop.ResetPressed ∉ es →
  countMoves (Loop.labels es c)
    + countCell Null (board (Loop.current (Loop.run es c)))
  = countCell Null (board (Loop.current c))
  ∧ countMoves (Loop.labels es c) ≤ 9.
Proof.
  intros Hr Hn. pose proof (reachedCalmly_steady _ Hr) as Hs.
  assert (countMoves (Loop.labels es c)
            + countCell Null (board (Loop.current (Loop.run es c)))
          = countCell Null (board (Loop.current c))) as Hsum.
  { clear Hr. revert c Hs. induction es as [|e es IH]; intros c Hs; [done|].
    assert (e ≠ Loop.ResetPressed) as He by (intros ->; apply Hn; left).
    assert (Loop.ResetPressed ∉ es) as Hn' by (intros H; apply Hn; by right).
    pose proof (react_moves c e Hs He) as H1.
    assert (Loop.steady (Loop.react e c)) as Hs'
      by (apply react_steady; [done|by intros ->]).
    pose proof (IH Hn' _ Hs') as H2. simpl in *.
    destruct (Loop.labelOf e c); simpl in *; lia. }
  split; [done|].
  assert (countCell Null (board (Loop.current c)) ≤ 9) as Hle.
  { rewrite <- (consistent_length _ (proj1 Hs)). apply length_filter. }
  lia.
Qed.

Lemma moves_and_empty_cells_add_up_witness :
  Loop.reachedCalmly Loop.initial ∧ (Loop.ResetPressed ∉ Loop.opponentWins)
  ∧ countMoves (Loop.labels Loop.opponentWins Loop.initial)
      + countCell Null (board (Loop.current (Loop.run Loop.opponentWins Loop.initial)))
    = countCell Null (board (Loop.current Loop.initial)).
Proof.
  assert (Loop.reachedCalmly Loop.initial) as Hr
    by (exists []; split; [exact I|reflexivity]).
  assert (Loop.ResetPressed ∉ Loop.opponentWins) as Hn.
  { intros H. unfold Loop.opponentWins in H.
    repeat (apply elem_of_cons in H as [H|H]; [discriminate H|]).
    by apply elem_of_nil in H. }
  split; [exact Hr|]. split; [exact Hn|].
  exact (proj1 (moves_and_empty_cells_add_up Loop.initial Loop.opponentWins Hr Hn)).
Defined.

(** X6: as long as no reset has raced a timer the game never gets stuck:
    while the board is in progress, on O's turn some click on an empty cell
    is accepted and writes O there, and on X's turn the pending timer, for
    every random draw, writes X on an empty cell. *)
Theorem game_in_progress_can_move (c : Loop.config) :
  Loop.reachedCalmly c → evaluate (board (Loop.current c)) = InProgress →
  (xIsNext (Loop.current c) = false →
     ∃ i, i < 9 ∧ Js.get (board (Loop.current c)) i = Null
          ∧ Loop.placed (Loop.Click i) c = Some (O, i)
          ∧ board (Loop.current (Loop.react (Loop.Click i) c))
            = <[i := Mark O]> (board (Loop.current c)))
  ∧ (xIsNext (Loop.current c) = true →
     ∀ r, ∃ i, Js.get (board (Loop.current c)) i = Null
               ∧ Loop.placed (Loop.TimerFires r) c = Some (X, i)
               ∧ board (Loop.current (Loop.react (Loop.TimerFires r) c))
                 = <[i := Mark X]> (board (Loop.current c))).
Proof.
  intros Hs%reachedCalmly_steady He. pose proof Hs as [Hc _]. split.
  - intros Hx.
    destruct (consistent_in_progress _ Hc He) as (Hw & _ & Hd).
    pose proof He as [_ [i Hi]%includes_null_get]%evaluate_InProgress.
    assert (i < 9) as Hlt.
    { rewrite <- (consistent_length _ Hc). apply get_defined_lt. by rewrite Hi. }
    assert (Loop.placed (Loop.Click i) c = Some (O, i)) as Hp.
    { unfold Loop.placed. rewrite (proj2 (Nat.ltb_lt _ _) Hlt).
      rewrite (proj2 (clickAccepted_true _ _)); [done|]. by rewrite Hi. }
    exists i. split_and!; [done..|].
    pose proof (react_game c (Loop.Click i) Hs) as Hg.
    rewrite (proj2 (placed_label _ _ _ _ Hp)) in Hg.
    by destruct Hg as (_ & _ & _ & Hb & _).
  - intros Hx r.
    destruct (steady_timers c Hs) as [[_ Hnone]|(Ht & Hreq & _)].
    { assert ((gameEffect (Loop.current c)).2 = Some (board (Loop.current c)))
        as Hsome by (by apply gameEffect_requests). congruence. }
    destruct (requested_move_defined _ _ r Hreq) as (i & Hci & Hi).
    assert (Loop.placed (Loop.TimerFires r) c = Some (X, i)) as Hp.
    { unfold Loop.placed. rewrite Ht, Hi. simpl. rewrite Nat2Z.id.
      rewrite decide_False; [done|]. intros Hnil.
      pose proof (cascade_empty _ _ _ Hci) as Hin.
      apply elem_of_availableSquares in Hin. rewrite Hnil in Hin.
      by apply elem_of_nil in Hin. }
    exists i. pose proof (react_game c (Loop.TimerFires r) Hs) as Hg.
    rewrite (proj2 (placed_label _ _ _ _ Hp)) in Hg.
    destruct Hg as (_ & _ & Hn & Hb & _). by split_and!.
Qed.

Lemma game_in_progress_can_move_witness :
  let c := Loop.run [Loop.Click 4] Loop.initial in
  Loop.reachedCalmly c ∧ evaluate (board (Loop.current c)) = InProgress
  ∧ xIsNext (Loop.current c) = true
  ∧ ∃ i, Js.get (board (Loop.current c)) i = Null
         ∧ Loop.placed (Loop.TimerFires (Js.Random 2 1)) c = Some (X, i)
         ∧ board (Loop.current (Loop.react (Loop.TimerFires (Js.Random 2 1)) c))
           = <[i := Mark X]> (board (Loop.current c)).
Proof.
  intros c.
  assert (Loop.reachedCalmly c) as Hr.
  { exists [Loop.Click 4]. split; [calm_run|reflexivity]. }
  assert (evaluate (board (Loop.current c)) = InProgress) as He
    by (vm_compute; reflexivity).
  assert (xIsNext (Loop.current c) = true) as Hx by (vm_compute; reflexivity).
  split; [exact Hr|]. split; [exact He|]. split; [exact Hx|].
  exact (proj2 (game_in_progress_can_move c Hr He) Hx (Js.Random 2 1)).
Defined.

(** ** The view *)

(** X13: as long as no reset has raced a timer, the highlighted squares are
    squares of the board that show the winner's mark; nothing is
    highlighted while there is no winner, and with a winner exactly three
    squares are. *)
Theorem highlighted_squares_show_the_winner (c : Loop.config) (i : nat) :
  Loop.reachedCalmly c →
  let st := Loop.current c in
  (isWinningSquare (winningLine st) i = true →
     i < 9 ∧ ∃ m, winner st = Some m
                  ∧ squareText (Js.get (board st) i) = Some m)
  ∧ (winner st = None → isWinningSquare (winningLine st) i = false)
  ∧ (winner st ≠ None →
     length (filter (λ j, isWinningSquare (winningLine st) j = true) (seq 0 9)) = 3).
Proof.
  intros [Hc _]%reachedCalmly_steady st. by apply consistent_highlight.
Qed.

Lemma highlighted_squares_show_the_winner_witness :
  let st := Loop.current (Loop.run Loop.opponentWins Loop.initial) in
  Loop.reachedCalmly (Loop.run Loop.opponentWins Loop.initial)
  ∧ isWinningSquare (winningLine st) 4 = true
  ∧ 4 < 9
  ∧ ∃ m, winner st = Some m ∧ squareText (Js.get (board st) 4) = Some m.
Proof.
  intros st.
  assert (isWinningSquare (winningLine st) 4 = true) as Hw
    by (vm_compute; reflexivity).
  split; [exact opponentWins_reached|]. split; [exact Hw|].
  exact (proj1 (highlighted_squares_show_the_winner _ 4 opponentWins_reached)
           Hw).
Defined.

(** X14: as long as no reset has raced a timer, the status line tells the
    status of the board: the winner's letter exactly when a line of that
    mark is complete, the draw text exactly when the board is drawn, and
    otherwise whose turn it is. *)
Theorem status_line_matches_board (c : Loop.config) :
  Loop.reachedCalmly c →
  let st := Loop.current c in
  (∀ m, getStatus st = "Winner: " +:+ markText m ↔
        ∃ l, evaluate (board st) = Won m l)
  ∧ (getStatus st = "It's a Draw!" ↔ evaluate (board st) = Drawn)
  ∧ (getStatus st = "Your turn (O)" ↔
     evaluate (board st) = InProgress ∧ sideToMove st = O)
  ∧ (getStatus st = "Computer's turn (X)" ↔
     evaluate (board st) = InProgress ∧ sideToMove st = X).
Proof.
  intros [Hc _]%reachedCalmly_steady st. by apply consistent_status.
Qed.

Lemma status_line_matches_board_witness :
  let st := Loop.current (Loop.run Loop.drawnGame Loop.initial) in
  Loop.reachedCalmly (Loop.run Loop.drawnGame Loop.initial)
  ∧ (getStatus st = "It's a Draw!" ↔ evaluate (board st) = Drawn).
Proof.
  intros st. split; [exact drawnGame_reached|].
  exact (proj1 (proj2 (status_line_matches_board _ drawnGame_reached))).
Defined.

(** X15: as long as no reset has raced a timer, the analysis button is
    offered exactly when the game is over. *)
Theorem analysis_button_when_game_over (c : Loop.config) :
  Loop.reachedCalmly c →
  (analysisButtonShown (Loop.current c) = true ↔
   evaluate (board (Loop.current c)) ≠ InProgress).
Proof.
  intros [Hc _]%reachedCalmly_steady. by apply consistent_button.
Qed.

Lemma analysis_button_when_game_over_witness :
  let c := Loop.run Loop.opponentWins Loop.initial in
  Loop.reachedCalmly c
  ∧ (analysisButtonShown (Loop.current c) = true ↔
     evaluate (board (Loop.current c)) ≠ InProgress).
Proof.
  intros c. split; [exact opponentWins_reached|].
  exact (analysis_button_when_game_over c opponentWins_reached).
Defined.

(** ** Who can win, and how a draw looks *)

Lemma react_mover_wins c e m i :
  Loop.steady c → Loop.labelOf e c = Moved m i →
  ∀ w l,
    calculateWinner (board (Loop.current (Loop.react e c)))
    = Some (WinnerInfo w l) →
    w = m ∧ i ∈ [l.1.1; l.1.2; l.2]
    ∧ winner (Loop.current (Loop.react e c)) = Some m
    ∧ (gameEffect (Loop.current (Loop.react e c))).2 = None.
Proof.
  intros Hs El w l Hw.
  pose proof (react_consistent c e Hs) as Hc'.
  pose proof (react_game c e Hs) as Hg. rewrite El in Hg.
  destruct Hg as (He & _ & Hn & Hb & _).
  assert (calculateWinner (board (Loop.current c)) = None) as Hnone
    by (by apply evaluate_InProgress in He as [He' _]).
  pose proof Hw as (pre & post & E & Hcomp & _)%scanLines_Some.
  simpl in E, Hcomp.
  assert (l ∈ lines) as Hl by (rewrite E; apply elem_of_app; right; left).
  assert (i ∈ [l.1.1; l.1.2; l.2]) as Hi.
  { destruct (decide (i ∈ [l.1.1; l.1.2; l.2])) as [|Hni]; [done|].
    exfalso. rewrite Hb in Hcomp.
    apply complete_insert_elsewhere in Hcomp; [|done].
    apply (proj1 (scanLines_None _ _) Hnone l Hl). by exists w. }
  assert (Js.get (board (Loop.current (Loop.react e c))) i = Mark m) as Hgi.
  { rewrite Hb, <- put_lt by (apply get_defined_lt; by rewrite Hn).
    apply get_put_eq. }
  assert (w = m) as ->.
  { destruct Hcomp as (Ha & Hb' & Hc).
    repeat (apply elem_of_cons in Hi as [->|Hi]); try congruence.
    by apply elem_of_nil in Hi. }
  split_and!; [done|done| |].
  - by rewrite (consistent_winner _ Hc'), Hw.
  - rewrite gameEffect_evaluate. unfold evaluate. by rewrite Hw.
Qed.

(** X20: as long as no reset has raced a timer, only the side that has just
    moved can have won: after an event that places a mark, a winner
    reported for the new board is the mover, the reported line contains the
    cell just played, the stored winner is the mover and no timer is
    pending. *)
Theorem only_the_mover_wins (c : Loop.config) (e : Loop.event) (m : mark) (i : nat) :
  Loop.reachedCalmly c → Loop.placed e c = Some (m, i) →
  ∀ w l,
    calculateWinner (board (Loop.current (Loop.react e c)))
    = Some (WinnerInfo w l) →
    w = m ∧ i ∈ [l.1.1; l.1.2; l.2]
    ∧ winner (Loop.current (Loop.react e c)) = Some m
    ∧ Loop.timers (Loop.react e c) = [].
Proof.
  intros Hs%reachedCalmly_steady Hp w l Hw.
  destruct (placed_label _ _ _ _ Hp) as [He El].
  assert (Loop.steady (Loop.react e c)) as [_ Ht]
    by (apply react_steady; [done|by intros ->]).
  destruct (react_mover_wins _ _ _ _ Hs El w l Hw) as (H1 & H2 & H3 & H4).
  split_and!; try done. by rewrite Ht, H4.
Qed.

Lemma only_the_mover_wins_witness :
  let c := Loop.run [Loop.Click 0; Loop.TimerFires (Js.Random 0 0);
                     Loop.Click 1; Loop.TimerFires (Js.Random 0 0);
                     Loop.Click 3] Loop.initial in
  let e := Loop.TimerFires (Js.Random 0 0) in
  Loop.reachedCalmly c ∧ Loop.placed e c = Some (X, 6)
  ∧ calculateWinner (board (Loop.current (Loop.react e c)))
    = Some (WinnerInfo X (2, 4, 6))
  ∧ X = X ∧ 6 ∈ [2; 4; 6].
Proof.
  intros c e.
  assert (Loop.reachedCalmly c) as Hr.
  { eexists. split; [|reflexivity]. calm_run. }
  assert (Loop.placed e c = Some (X, 6)) as Hp by (vm_compute; reflexivity).
  assert (calculateWinner (board (Loop.current (Loop.react e c)))
          = Some (WinnerInfo X (2, 4, 6))) as Hw by (vm_compute; reflexivity).
  split; [exact Hr|]. split; [exact Hp|]. split; [exact Hw|].
  destruct (only_the_mover_wins c e X 6 Hr Hp X (2, 4, 6) Hw)
    as (H1 & H2 & _).
  split; [exact H1|exact H2].
Defined.

(** X21: as long as no reset has raced a timer, a drawn game has ended on
    O's move: a drawn board holds five O and four X and no empty cell, the
    turn flag still points at X, and no timer is pending. *)
Theorem drawn_board_has_five_O_and_four_X (c : Loop.config) :
  Loop.reachedCalmly c → evaluate (board (Loop.current c)) = Drawn →
  countCell (Mark O) (board (Loop.current c)) = 5
  ∧ countCell (Mark X) (board (Loop.current c)) = 4
  ∧ countCell Null (board (Loop.current c)) = 0
  ∧ xIsNext (Loop.current c) = true
  ∧ Loop.timers c = [].
Proof.
  intros Hr Hd. pose proof (reachedCalmly_steady _ Hr) as [Hc Ht].
  destruct (consistent_drawn _ Hc (reachedCalmly_balanced _ Hr) Hd)
    as (H1 & H2 & H3 & H4 & H5).
  split_and!; try done. by rewrite Ht, H5.
Qed.

Lemma drawn_board_has_five_O_and_four_X_witness :
  let c := Loop.run Loop.drawnGame Loop.initial in
  Loop.reachedCalmly c ∧ evaluate (board (Loop.current c)) = Drawn
  ∧ countCell (Mark O) (board (Loop.current c)) = 5
  ∧ countCell (Mark X) (board (Loop.current c)) = 4.
Proof.
  intros c.
  assert (evaluate (board (Loop.current c)) = Drawn) as Hd
    by (vm_compute; reflexivity).
  split; [exact drawnGame_reached|]. split; [exact Hd|].
  destruct (drawn_board_has_five_O_and_four_X c drawnGame_reached Hd)
    as (H1 & H2 & _).
  split; [exact H1|exact H2].
Defined.
